(** * Kisunyabot: response dispatch and fallback fetch

    A shallow embedding of [kisunyabot.py]: the payload validation of
    [parse_answer], the two-tier fetch of [get_response], the three handlers
    [new_image], [reply_to_message], [wake_up] and the handler registration
    of [main].

    Strings are sequences of bytes holding UTF-8 text, as the literals of the
    source are stored on disk. *)

From Stdlib Require Import ZArith Ascii String Lia.
From stdpp Require Import base option list strings gmap pretty.

Local Open Scope Z_scope.
Local Open Scope string_scope.
Local Open Scope list_scope.
Local Set Warnings "-register-all".

(** ** Python values that reach the program *)

Module Py.

(** The quotation mark and the apostrophe, for the messages that hold one. *)
Definition dquote : string := String (ascii_of_nat 34) EmptyString.
Definition squote : string := String (ascii_of_nat 39) EmptyString.

(** What [json.loads] builds: None, bool, int, float (kept as its literal),
    str, list and dict.  A dict is a finite map from its keys. *)
Inductive value : Type :=
| VNone
| VBool (b : bool)
| VInt (n : Z)
| VFloat (literal : string)
| VStr (s : string)
| VList (items : list value)
| VDict (fields : gmap string value).

(** [type(v)] as an f-string prints it. *)
Definition type_name (v : value) : string :=
  match v with
  | VNone => "NoneType"
  | VBool _ => "bool"
  | VInt _ => "int"
  | VFloat _ => "float"
  | VStr _ => "str"
  | VList _ => "list"
  | VDict _ => "dict"
  end.

Definition str_type (v : value) : string :=
  "<class " +:+ squote +:+ type_name v +:+ squote +:+ ">".

(** [needle in haystack] on two str objects: containment as a substring. *)
Fixpoint str_contains (needle haystack : string) : bool :=
  if String.prefix needle haystack then true
  else match haystack with
       | EmptyString => false
       | String _ rest => str_contains needle rest
       end.

(** Truth value of a str: the empty one is false. *)
Definition truthy_str (s : string) : bool :=
  match s with EmptyString => false | String _ _ => true end.

(** [str(x)] of an optional str, as an f-string interpolates it. *)
Definition str_optional (x : option string) : string :=
  match x with Some s => s | None => "None" end.

(** [repr] of a str: in apostrophes, unless the text has an apostrophe and
    no quotation mark.  A backslash and the delimiter are escaped with a
    backslash; tab, line feed and carriage return are written with their
    letters, and the other control characters of ASCII as two hexadecimal
    digits.  A byte above 127 is part of a character outside ASCII, which is
    taken to be a printable one (a letter, as in the texts of the program)
    and kept. *)
Definition hex_digit (n : nat) : ascii :=
  match String.get n "0123456789abcdef" with
  | Some c => c
  | None => ascii_of_nat 48
  end.

Definition escape_char (delim c : ascii) : string :=
  let n := nat_of_ascii c in
  let backslash := ascii_of_nat 92 in
  if (Ascii.eqb c delim || Ascii.eqb c backslash)%bool
  then String backslash (String c EmptyString)
  else if Nat.eqb n 9 then String backslash "t"
  else if Nat.eqb n 10 then String backslash "n"
  else if Nat.eqb n 13 then String backslash "r"
  else if (Nat.ltb n 32 || Nat.eqb n 127)%bool
  then String backslash
         (String (ascii_of_nat 120)
            (String (hex_digit (Nat.div n 16))
               (String (hex_digit (Nat.modulo n 16)) EmptyString)))
  else String c EmptyString.

Fixpoint escape (delim : ascii) (s : string) : string :=
  match s with
  | EmptyString => EmptyString
  | String c rest => escape_char delim c +:+ escape delim rest
  end.

Definition repr_str (s : string) : string :=
  if (str_contains squote s && negb (str_contains dquote s))%bool
  then dquote +:+ escape (ascii_of_nat 34) s +:+ dquote
  else squote +:+ escape (ascii_of_nat 39) s +:+ squote.

(** The exceptions that can be raised in the program: the built-in ones it
    raises, the one of [json.decoder], its own [APIAnswerStatusCodeError], and
    whatever else [requests] or [telegram] may raise, by the name of its
    class. *)
Inductive exn : Type :=
| TypeError (msg : string)
| ValueError (msg : string)
| KeyError (msg : string)
| AttributeError (msg : string)
| JSONDecodeError (msg : string)
| APIAnswerStatusCodeError (msg : string)
| LibraryError (cls msg : string).

Definition class_name (e : exn) : string :=
  match e with
  | TypeError _ => "TypeError"
  | ValueError _ => "ValueError"
  | KeyError _ => "KeyError"
  | AttributeError _ => "AttributeError"
  | JSONDecodeError _ => "JSONDecodeError"
  | APIAnswerStatusCodeError _ => "APIAnswerStatusCodeError"
  | LibraryError cls _ => cls
  end.

(** [isinstance(e, JSONDecodeError)] *)
Definition is_JSONDecodeError (e : exn) : bool :=
  match e with JSONDecodeError _ => true | _ => false end.

(** Modelled from the spec: the module [exceptions], which declares
    [APIAnswerStatusCodeError], is not among the sources.  A non-OK status is
    deliberately raised as an error that triggers the fallback, and the
    catch-all of the handlers turns it into the apology: the class is an
    ordinary subclass of [Exception], as the classes of the libraries are,
    and [isinstance(e, Exception)] holds of every exception here. *)
Definition is_Exception (e : exn) : bool := true.

(** [str(error)]: the message, and for a KeyError the repr of its key. *)
Definition str_exn (e : exn) : string :=
  match e with
  | TypeError m | ValueError m | AttributeError m | JSONDecodeError m
  | APIAnswerStatusCodeError m | LibraryError _ m => m
  | KeyError m => repr_str m
  end.

End Py.

Export Py.

(** ** The world outside the program

    The program talks to three collaborators: the HTTP client
    ([requests.get]), the bot of the messaging gateway
    ([context.bot.send_message], [context.bot.send_photo]) and the logger.
    Every call is recorded, in order, with what it gave back. *)

(** How a call ends: it returns, or it raises. *)
Inductive outcome (A : Type) : Type :=
| Returned (a : A)
| Raised (e : exn).
Arguments Returned {A} a.
Arguments Raised {A} e.

(** A [requests] response, as far as the program looks at it: the status
    code, and how [response.json()] ends (on a body that is not JSON it
    raises [JSONDecodeError]). *)
Record Response : Type := {
  status_code : Z;
  json : outcome value
}.

(** [telegram.ReplyKeyboardMarkup]: rows of button labels. *)
Record ReplyKeyboardMarkup : Type := {
  keyboard : list (list string);
  resize_keyboard : bool
}.

Definition from_button (label : string) (resize : bool) : ReplyKeyboardMarkup :=
  {| keyboard := [[label]]; resize_keyboard := resize |}.

Inductive level : Type := DEBUG | INFO | ERROR | CRITICAL.

Inductive event : Type :=
| Log (lvl : level) (msg : string)
| HttpGet (url : string) (out : outcome Response)
| SendMessage (chat_id : Z) (text : string)
    (reply_markup : ReplyKeyboardMarkup) (out : outcome unit)
| SendPhoto (chat_id : Z) (photo : value) (out : outcome unit).

(** The collaborators.  What a call gives back may depend on everything that
    happened before it. *)
Record World : Type := {
  requests_get : list event -> string -> outcome Response;
  bot_send_message :
    list event -> Z -> string -> ReplyKeyboardMarkup -> outcome unit;
  bot_send_photo : list event -> Z -> value -> outcome unit
}.

(** A computation reads the world and the events so far, and gives the
    events it adds and how it ends. *)
Definition M (A : Type) : Type :=
  World -> list event -> list event * outcome A.

Definition run {A} (m : M A) (w : World) (past : list event)
  : list event * outcome A := m w past.

#[export] Instance M_ret : MRet M := fun A a _ _ => ([], Returned a).

#[export] Instance M_bind : MBind M := fun A B k m w past =>
  match m w past with
  | (evs, Returned a) =>
      let '(evs', r) := k a w (past ++ evs) in (evs ++ evs', r)
  | (evs, Raised e) => (evs, Raised e)
  end.

(** [raise e] *)
Definition raise {A} (e : exn) : M A := fun _ _ => ([], Raised e).

(** [try: body  except <class> as error: handler error]: an exception the
    clause does not name goes on. *)
Definition try_except_on {A} (named : exn -> bool) (body : M A)
    (handler : exn -> M A) : M A :=
  fun w past =>
    match body w past with
    | (evs, Returned a) => (evs, Returned a)
    | (evs, Raised e) =>
        if named e
        then let '(evs', r) := handler e w (past ++ evs) in (evs ++ evs', r)
        else (evs, Raised e)
    end.

(** [try: body  except Exception as error: handler error] *)
Definition try_except {A} : M A -> (exn -> M A) -> M A :=
  try_except_on is_Exception.

(** [error(text)] where [error] is an exception object: an instance is not
    callable, so the call itself raises [TypeError] and gives nothing. *)
Definition call_exception_object {A} (error : exn) (text : string) : M A :=
  raise (TypeError
    (squote +:+ class_name error +:+ squote +:+ " object is not callable")).

(** One call of a collaborator: ask the world, record the call. *)
Definition call {A} (ask : World -> list event -> outcome A)
    (record : outcome A -> event) : M A :=
  fun w past => let out := ask w past in ([record out], out).

Definition log (lvl : level) (msg : string) : M unit :=
  fun _ _ => ([Log lvl msg], Returned tt).

Definition http_get (url : string) : M Response :=
  call (fun w past => requests_get w past url) (HttpGet url).

Definition send_message_call (chat_id : Z) (text : string)
    (markup : ReplyKeyboardMarkup) : M unit :=
  call (fun w past => bot_send_message w past chat_id text markup)
       (SendMessage chat_id text markup).

Definition send_photo_call (chat_id : Z) (photo : value) : M unit :=
  call (fun w past => bot_send_photo w past chat_id photo)
       (SendPhoto chat_id photo).

(** [if cond: body] *)
Definition when (cond : bool) (body : M unit) : M unit :=
  if cond then body else mret tt.

(** [response.json()] *)
Definition response_json (response : Response) : M value :=
  fun _ _ => ([], json response).

(** ** The program *)

Definition DEFAULT_ENDPOINT : string :=
  "https://api.thecatapi.com/v1/images/search".
Definition BACKUP_ENDPOINT : string :=
  "https://api.thedogapi.com/v1/images/search".

Definition BUTTON : string := "Подай котика!".
Definition MARKUP : ReplyKeyboardMarkup := from_button BUTTON true.

Definition HTTPStatus_OK : Z := 200.

(** [send_message]: a failure of the gateway is logged, never raised. *)
Definition send_message (chat_id : Z) (text : string) : M unit :=
  try_except
    (send_message_call chat_id text MARKUP ;;
     log INFO ("Сообщение " +:+ dquote +:+ text +:+ dquote
               +:+ " отправлено успешно."))
    (fun error =>
       log ERROR ("Неудачная попытка отправить сообщение " +:+ dquote
                  +:+ text +:+ dquote +:+ " пользователю. Ошибка: "
                  +:+ str_exn error +:+ ".")).

Definition text_not_json : string :=
  "Эндпоинт передал ответ не в формате json.".
Definition text_not_list (response : value) : string :=
  "Неверный тип данных декодированного из json ответа. "
  +:+ "Требуется список, текущий тип - " +:+ str_type response +:+ ".".
Definition text_empty : string :=
  "Декодированный из json ответ ошибочно пуст.".
Definition text_not_dict (response_information : value) : string :=
  "Неверный тип данных элемента ответа. Требуется словарь, "
  +:+ "текущий тип - " +:+ str_type response_information +:+ ".".
Definition text_no_url : string :=
  "Ответ не содержит данные про " +:+ dquote +:+ "url" +:+ dquote +:+ ".".

(** [parse_answer].  The four guards after the decoding ([isinstance] of
    list, non-empty, [isinstance] of dict, the key url) are read off the
    shape of the decoded value, in the order of the source. *)
Definition parse_answer (response : Response) : M value :=
  response ← try_except_on is_JSONDecodeError
    (response_json response)
    (fun error =>
       let text := text_not_json in
       log ERROR text ;;
       call_exception_object error text);
  match response with
  | VList items =>
      match items with
      | [] =>
          let text := text_empty in
          log ERROR text ;; raise (ValueError text)
      | response_information :: _ =>
          match response_information with
          | VDict fields =>
              match fields !! "url" with
              | None =>
                  let text := text_no_url in
                  log ERROR text ;; raise (KeyError text)
              | Some url =>
                  log INFO
                    "Проверка ответа от API на корректность выполнена успешно." ;;
                  mret url
              end
          | _ =>
              let text := text_not_dict response_information in
              log ERROR text ;; raise (TypeError text)
          end
      end
  | _ =>
      let text := text_not_list response in
      log ERROR text ;; raise (TypeError text)
  end.

Definition text_unavailable (endpoint : string) (code : Z) : string :=
  "Эндпоинт " +:+ endpoint +:+ " недоступен. Код ответа API: "
  +:+ pretty code +:+ ".".

(** [get_response]: the body of its [try] ... *)
Definition primary_attempt : M Response :=
  response ← http_get DEFAULT_ENDPOINT;
  when (negb (Z.eqb (status_code response) HTTPStatus_OK))
    (let text := text_unavailable DEFAULT_ENDPOINT (status_code response) in
     log ERROR text ;; raise (APIAnswerStatusCodeError text)) ;;
  log INFO "Запрос к основному API выполнен успешно." ;;
  mret response.

(** ... the body of its [except Exception as error] ... *)
Definition backup_attempt (error : exn) : M Response :=
  log ERROR ("Ошибка при запросе к основному API: " +:+ str_exn error) ;;
  log DEBUG "Попытка обратиться к запасному API" ;;
  response ← http_get BACKUP_ENDPOINT;
  when (negb (Z.eqb (status_code response) HTTPStatus_OK))
    (let text := text_unavailable BACKUP_ENDPOINT (status_code response) in
     log ERROR text ;; raise (APIAnswerStatusCodeError text)) ;;
  log INFO "Запрос к запасному API выполнен успешно." ;;
  mret response.

(** ... and the function: [response] is returned after the statement,
    whichever of the two bodies bound it. *)
Definition get_response : M Response :=
  try_except primary_attempt backup_attempt.

(** An inbound update, as far as the handlers and the filters look at it:
    - the text of [update.effective_message], which the filters read; the
      empty string stands for a message without a text, whose [text] is
      None;
    - [update.effective_chat.id] and [.first_name] (which Telegram may leave
      out);
    - the bot command [CommandHandler] finds at the head of the message
      (lower-cased, addressed to this bot), if any;
    - whether [update.message] is set.  It is for a new message, and then it
      is the effective message; for an edited message and for a channel post
      the effective message is another attribute of the update and
      [update.message] is None. *)
Record Update : Type := {
  message_text : string;
  chat_id : Z;
  first_name : option string;
  bot_command : option string;
  has_message : bool
}.

(** The text of the debug record, for an update with a message:
    [f'Получено сообщение "{update.message.text}"']. *)
Definition text_received (update : Update) : string :=
  "Получено сообщение " +:+ dquote
  +:+ (if truthy_str (message_text update)
       then message_text update else "None")
  +:+ dquote.

Definition text_no_message : string :=
  squote +:+ "NoneType" +:+ squote +:+ " object has no attribute "
  +:+ squote +:+ "text" +:+ squote.

(** The argument of the first statement of every handler: reading
    [update.message.text] raises AttributeError when [update.message] is
    None, before anything is logged. *)
Definition received (update : Update) : M string :=
  if has_message update
  then mret (text_received update)
  else raise (AttributeError text_no_message).

Definition text_apology : string :=
  "К сожалению, сервис на данный момент недоступен. "
  +:+ "Попробуйте обратиться позднее.".

Definition text_cannot_chat : string :=
  "К сожалению, я не умею общаться. Но зато мастерски ищу "
  +:+ "фотографии котиков.".

Definition text_greeting (name : option string) : string :=
  "Привет, " +:+ str_optional name
  +:+ ". Посмотри, какого котика я тебе нашёл!".

(** [new_image]: the handler of the button message. *)
Definition new_image (update : Update) : M unit :=
  text ← received update;
  log DEBUG text ;;
  let chat := chat_id update in
  try_except
    (response ← get_response;
     image ← parse_answer response;
     send_photo_call chat image ;;
     log INFO "Изображение на сообщение по кнопке отправлено успешно.")
    (fun error =>
       log ERROR ("Сбой в работе программы при ответе на сообщение "
                  +:+ "по кнопке: " +:+ str_exn error) ;;
       let text := text_apology in
       send_message chat text).

(** [reply_to_message]: the handler of any other message. *)
Definition reply_to_message (update : Update) : M unit :=
  text ← received update;
  log DEBUG text ;;
  let chat := chat_id update in
  let text := text_cannot_chat in
  send_message chat text.

(** [wake_up]: the handler of the command [start]. *)
Definition wake_up (update : Update) : M unit :=
  text ← received update;
  log DEBUG text ;;
  let chat := chat_id update in
  let name := first_name update in
  let text := text_greeting name in
  send_message chat text ;;
  try_except
    (response ← get_response;
     image ← parse_answer response;
     send_photo_call chat image ;;
     log INFO ("Изображение на команду " +:+ dquote +:+ "start" +:+ dquote
               +:+ " отправлено успешно."))
    (fun error =>
       log ERROR ("Сбой в работе программы при ответе на командное "
                  +:+ "сообщение " +:+ dquote +:+ "start" +:+ dquote +:+ ": "
                  +:+ str_exn error) ;;
       let text := text_apology in
       send_message chat text).

(** *** The handlers [main] registers

    The gateway gives an update to the first registered handler whose check
    accepts it, and to no other.  How the run of the handler ends is how the
    handling of the update ends here; what the gateway does with an exception
    of a handler is its own matter. *)

(** [CommandHandler(command, _)] accepts a message that opens with that bot
    command; [MessageHandler(filter, _)] one that its filter accepts. *)
Definition CommandHandler_check (command : string) (update : Update) : bool :=
  match bot_command update with
  | Some c => String.eqb c command
  | None => false
  end.

(** [Filters.text]: a message with a text. *)
Definition Filters_text (update : Update) : bool :=
  truthy_str (message_text update).

(** [Filters.text(strings)]: called with anything but an update,
    [Filters.text] builds the filter of the messages with a text for which
    [message.text in strings] holds.  [main] passes the str [BUTTON] itself,
    not a list holding it, and [in] on a str is containment as a
    substring. *)
Definition Filters_text_in (strings : string) (update : Update) : bool :=
  if truthy_str (message_text update)
  then str_contains (message_text update) strings
  else false.

Definition handler : Type := (Update -> bool) * (Update -> M unit).

Definition handlers : list handler :=
  [ (CommandHandler_check "start", wake_up);
    (Filters_text_in BUTTON, new_image);
    (Filters_text, reply_to_message) ].

Fixpoint process_update (hs : list handler) (update : Update) : M unit :=
  match hs with
  | [] => mret tt
  | (check, callback) :: rest =>
      if check update then callback update else process_update rest update
  end.

Definition dispatch : Update -> M unit := process_update handlers.

(** ** What an observer of the collaborators sees *)

(** The outbound calls the gateway receives, each with how it ended. *)
Inductive gateway_call : Type :=
| sendText (chat : Z) (text : string)
| sendImage (chat : Z) (image : value).

Definition delivery_of (ev : event) : option (gateway_call * outcome unit) :=
  match ev with
  | SendMessage chat text _ out => Some (sendText chat text, out)
  | SendPhoto chat image out => Some (sendImage chat image, out)
  | _ => None
  end.

Definition deliveries (evs : list event)
  : list (gateway_call * outcome unit) := omap delivery_of evs.

Definition gateway_calls (evs : list event) : list gateway_call :=
  fst <$> deliveries evs.

(** The GET requests issued, each with how it ended. *)
Definition exchange_of (ev : event) : option (string * outcome Response) :=
  match ev with
  | HttpGet url out => Some (url, out)
  | _ => None
  end.

Definition exchanges (evs : list event)
  : list (string * outcome Response) := omap exchange_of evs.

Definition http_requests (evs : list event) : list string :=
  fst <$> exchanges evs.

(** The quick-reply keyboards attached to the texts sent. *)
Definition markup_of (ev : event) : option ReplyKeyboardMarkup :=
  match ev with
  | SendMessage _ _ markup _ => Some markup
  | _ => None
  end.

Definition markups (evs : list event) : list ReplyKeyboardMarkup :=
  omap markup_of evs.

(** An attempt on an endpoint did not yield a success status: the request
    raised, or the response has a status other than 200. *)
Definition failed (out : outcome Response) : Prop :=
  match out with
  | Raised _ => True
  | Returned response => status_code response ≠ HTTPStatus_OK
  end.

(** The error kinds of the payload validation, by the class raised. *)
Inductive parse_error : Type :=
| MalformedPayload | UnexpectedShape | EmptyPayload | MissingField.

Definition error_kind (e : exn) : option parse_error :=
  match e with
  | JSONDecodeError _ => Some MalformedPayload
  | TypeError _ => Some UnexpectedShape
  | ValueError _ => Some EmptyPayload
  | KeyError _ => Some MissingField
  | _ => None
  end.

(** ** Summaries of the runs, and scenarios

    The relations below say what a run of [get_response], and of the
    try-block the two image handlers share, can look like to an observer;
    the lemmas of the next part prove that every run is of one of these
    forms. *)

Definition exchange : Type := string * outcome Response.
Definition delivery : Type := gateway_call * outcome unit.

Definition is_log (ev : event) : Prop :=
  match ev with Log _ _ => True | _ => False end.

(** The four ways [get_response] can go. *)
Inductive fetch_run : list exchange -> outcome Response -> Prop :=
| fetch_primary r :
    status_code r = HTTPStatus_OK ->
    fetch_run [(DEFAULT_ENDPOINT, Returned r)] (Returned r)
| fetch_backup o1 r :
    failed o1 -> status_code r = HTTPStatus_OK ->
    fetch_run [(DEFAULT_ENDPOINT, o1); (BACKUP_ENDPOINT, Returned r)]
              (Returned r)
| fetch_unavailable o1 r :
    failed o1 -> status_code r ≠ HTTPStatus_OK ->
    fetch_run [(DEFAULT_ENDPOINT, o1); (BACKUP_ENDPOINT, Returned r)]
              (Raised (APIAnswerStatusCodeError
                         (text_unavailable BACKUP_ENDPOINT (status_code r))))
| fetch_transport o1 e :
    failed o1 ->
    fetch_run [(DEFAULT_ENDPOINT, o1); (BACKUP_ENDPOINT, Raised e)]
              (Raised e).

(** [parse_answer] looks at the response only: how it ends on one. *)
Definition parses (response : Response) (out : outcome value) : Prop :=
  forall w past, snd (run (parse_answer response) w past) = out.

(** The four ways the image flow (fetch, parse, send the photo; on any
    exception the apology) can go. *)
Inductive flow_run (chat : Z) : list exchange -> list delivery -> Prop :=
| flow_fetch_failed xs e out :
    fetch_run xs (Raised e) ->
    flow_run chat xs [(sendText chat text_apology, out)]
| flow_parse_failed xs r e out :
    fetch_run xs (Returned r) -> parses r (Raised e) ->
    flow_run chat xs [(sendText chat text_apology, out)]
| flow_photo_failed xs r image e out :
    fetch_run xs (Returned r) -> parses r (Returned image) ->
    flow_run chat xs [(sendImage chat image, Raised e);
                      (sendText chat text_apology, out)]
| flow_photo_sent xs r image :
    fetch_run xs (Returned r) -> parses r (Returned image) ->
    flow_run chat xs [(sendImage chat image, Returned tt)].

(** *** What the world answers

    The conditions of the properties are put on the collaborators, not on
    what the program did: from the history [past] on, whenever the endpoint
    is asked, ... *)


(** ... or, more narrowly, when it is asked next, whatever is logged in
    between; *)
Definition answers_next (w : World) (past : list event) (url : string)
    (out : outcome Response) : Prop :=
  forall logs, Forall is_log logs -> requests_get w (past ++ logs) url = out.



(** The gateway refuses the photo with [e]. *)
Definition refuses (w : World) (past : list event) (chat : Z)
    (image : value) (e : exn) : Prop :=
  forall evs, bot_send_photo w (past ++ evs) chat image = Raised e.

(** The image flow started at [past], by what the world answers there:
    its exchanges are those of [get_response]; the deliveries are the
    apology when the fetch or the parsing raises, and otherwise the photo,
    followed by the apology when the photo call raises. *)
Definition flow_outcome (chat : Z) (w : World) (past : list event)
    (xs : list exchange) (ds : list delivery) : Prop :=
  xs = exchanges (fst (run get_response w past))
  /\ match snd (run get_response w past) with
     | Raised _ => exists out, ds = [(sendText chat text_apology, out)]
     | Returned r =>
         match snd (run (parse_answer r) w past) with
         | Raised _ => exists out, ds = [(sendText chat text_apology, out)]
         | Returned image =>
             exists evs out,
               ds = (sendImage chat image,
                     bot_send_photo w (past ++ evs) chat image)
                    :: match bot_send_photo w (past ++ evs) chat image with
                       | Returned _ => []
                       | Raised _ => [(sendText chat text_apology, out)]
                       end
         end
     end.

Module Scenario.

(** A world whose answers do not depend on what happened before. *)
Definition steady (get : string -> outcome Response)
    (text photo : outcome unit) : World :=
  {| requests_get := fun _ url => get url;
     bot_send_message := fun _ _ _ _ => text;
     bot_send_photo := fun _ _ _ => photo |}.

Definition respond (code : Z) (body : outcome value) : Response :=
  {| status_code := code; json := body |}.

Definition cat_png : value := VStr "http://x/cat.png".
Definition dog_png : value := VStr "http://x/dog.png".

(** [[{"url": "http://x/cat.png"}]] *)
Definition cat_payload : value := VList [VDict {[ "url" := cat_png ]}].

(** The same first [url], with more fields and more elements. *)
Definition busy_payload : value :=
  VList [VDict (<[ "id" := VStr "a1" ]> (<[ "width" := VInt 640 ]>
                  {[ "url" := cat_png ]}));
         VDict {[ "url" := dog_png ]};
         VInt 3].


(** [{"message": "quota exceeded"}]: JSON, and not a list. *)
Definition quota_payload : value :=
  VDict {[ "message" := VStr "quota exceeded" ]}.

Definition not_json : outcome value :=
  Raised (JSONDecodeError "Expecting value: line 1 column 1 (char 0)").

Definition timeout : exn := LibraryError "ConnectTimeout" "timed out".
Definition refused : exn := LibraryError "BadRequest" "Wrong file identifier".

Definition cats_up (url : string) : outcome Response :=
  Returned (respond 200 (Returned cat_payload)).

Definition both_500 (url : string) : outcome Response :=
  Returned (respond 500 not_json).

Definition cats_500_dogs_503 (url : string) : outcome Response :=
  if String.eqb url DEFAULT_ENDPOINT
  then Returned (respond 500 not_json)
  else Returned (respond 503 not_json).

Definition cats_500_dogs_timeout (url : string) : outcome Response :=
  if String.eqb url DEFAULT_ENDPOINT
  then Returned (respond 500 not_json)
  else Raised timeout.

Definition cats_quota (url : string) : outcome Response :=
  if String.eqb url DEFAULT_ENDPOINT
  then Returned (respond 200 (Returned quota_payload))
  else Returned (respond 200 (Returned cat_payload)).


Definition fine : World := steady cats_up (Returned tt) (Returned tt).
Definition down : World := steady both_500 (Returned tt) (Returned tt).
Definition degraded : World :=
  steady cats_500_dogs_503 (Returned tt) (Returned tt).
Definition unreachable : World :=
  steady cats_500_dogs_timeout (Returned tt) (Returned tt).
Definition quota : World := steady cats_quota (Returned tt) (Returned tt).
Definition photo_refused : World :=
  steady cats_up (Returned tt) (Raised refused).

Definition ann_starts : Update :=
  {| message_text := "/start"; chat_id := 7;
     first_name := Some "Ann"; bot_command := Some "start";
     has_message := true |}.

Definition ann_presses : Update :=
  {| message_text := BUTTON; chat_id := 7;
     first_name := Some "Ann"; bot_command := None;
     has_message := true |}.

Definition ann_says (text : string) : Update :=
  {| message_text := text; chat_id := 7;
     first_name := Some "Ann"; bot_command := None;
     has_message := true |}.

End Scenario.

(** ** Start-up: [check_token] and [main] *)

(** Modelled from the spec: [EnvVariableError] is declared in the module
    [exceptions], which is not among the sources; a missing credential is
    fatal at start-up.  [raise EnvVariableError] raises an instance made
    without arguments, whose message is empty. *)
Definition EnvVariableError : exn :=
  LibraryError "EnvVariableError" EmptyString.

(** Truth value of what [os.getenv] gives: None, or a str. *)
Definition truthy_optional (x : option string) : bool :=
  match x with Some s => truthy_str s | None => false end.

Definition text_token_found : string :=
  "Проверка доступности обязательной переменной окружения "
  +:+ "проведена успешно.".

Definition text_token_missing : string :=
  "Отсутствует обязательная переменная окружения. "
  +:+ "Программа будет принудительно остановлена.".

(** [check_token], of the module constant [TELEGRAM_TOKEN]. *)
Definition check_token (TELEGRAM_TOKEN : option string) : M bool :=
  if truthy_optional TELEGRAM_TOKEN
  then log INFO text_token_found ;; mret true
  else log CRITICAL text_token_missing ;; mret false.

(** [main].  What follows the check of the token (the updater made from the
    token, the three handlers added in their order, the polling until the
    process is stopped) is the gateway's own work: it is the parameter
    [serve], given the token and the handlers. *)
Definition main (TELEGRAM_TOKEN : option string)
    (serve : option string -> list handler -> M unit) : M unit :=
  ok ← check_token TELEGRAM_TOKEN;
  when (Bool.eqb ok false) (raise EnvVariableError) ;;
  serve TELEGRAM_TOKEN handlers.

(** ** Footprints *)

(** Every event a computation adds satisfies [P], in every world. *)
Definition keeps {A} (P : event -> Prop) (m : M A) : Prop :=
  forall w past, Forall P (fst (run m w past)).

(** What the handling of one update may do: log; ask one of the two
    endpoints; send to the chat of the update, with the keyboard of the one
    button, one of the three texts of the program; send a photo to that
    chat. *)
Definition polite (update : Update) (ev : event) : Prop :=
  match ev with
  | Log _ _ => True
  | HttpGet url _ => url = DEFAULT_ENDPOINT \/ url = BACKUP_ENDPOINT
  | SendMessage chat text markup _ =>
      chat = chat_id update
      /\ markup = MARKUP
      /\ (text = text_greeting (first_name update)
          \/ text = text_apology \/ text = text_cannot_chat)
  | SendPhoto chat _ _ => chat = chat_id update
  end.

Module Cases.

Import Scenario.

(** [[{"url": "http://x/dog.png"}]] *)
Definition dog_payload : value := VList [VDict {[ "url" := dog_png ]}].

(** [[{"id": "a1"}, {"url": "http://x/dog.png"}]]: the url is not in the first
    element. *)
Definition late_url_payload : value :=
  VList [VDict {[ "id" := VStr "a1" ]}; VDict {[ "url" := dog_png ]}].

Definition cats_500_dogs_up (url : string) : outcome Response :=
  if String.eqb url DEFAULT_ENDPOINT
  then Returned (respond 500 not_json)
  else Returned (respond 200 (Returned dog_payload)).

Definition dogs_only : World :=
  steady cats_500_dogs_up (Returned tt) (Returned tt).

(** A gateway that refuses every call. *)
Definition banned : exn := LibraryError "Unauthorized" "Forbidden".
Definition muted : World := steady cats_up (Raised banned) (Raised banned).

Definition decoding_broke : exn :=
  LibraryError "UnicodeDecodeError" "invalid start byte".

Definition ann_attaches : Update :=
  {| message_text := EmptyString; chat_id := 7;
     first_name := Some "Ann"; bot_command := None;
     has_message := true |}.

(** Ann edits an earlier message into [text]: the update carries
    [edited_message], and [message] is None. *)
Definition ann_edits (text : string) : Update :=
  {| message_text := text; chat_id := 7;
     first_name := Some "Ann"; bot_command := None;
     has_message := false |}.

Definition never_served (token : option string) (hs : list handler)
  : M unit := raise (LibraryError "AssertionError" "served").

Definition served (token : option string) (hs : list handler) : M unit :=
  log INFO "polling".

End Cases.

(** ** Observers and runs: basic facts *)

Lemma exchanges_app evs evs' :
  exchanges (evs ++ evs') = exchanges evs ++ exchanges evs'.
Proof. apply omap_app. Qed.

Lemma deliveries_app evs evs' :
  deliveries (evs ++ evs') = deliveries evs ++ deliveries evs'.
Proof. apply omap_app. Qed.

Lemma logs_silent evs :
  Forall is_log evs -> exchanges evs = [] /\ deliveries evs = [].
Proof.
  induction 1 as [|ev evs Hev _ [IHx IHd]]; [done|].
  by destruct ev.
Qed.

Lemma endpoints_differ : DEFAULT_ENDPOINT ≠ BACKUP_ENDPOINT.
Proof. discriminate. Qed.

Lemma failed_ok r : status_code r = HTTPStatus_OK -> ¬ failed (Returned r).
Proof. intros Hok Hf. by apply Hf. Qed.

(** [str_contains] is containment as a substring. *)
Lemma prefix_app needle haystack :
  String.prefix needle haystack = true
  <-> exists after, haystack = needle +:+ after.
Proof.
  revert haystack. induction needle as [|a needle IH]; intros haystack.
  - destruct haystack; cbn; split; eauto.
  - destruct haystack as [|b haystack]; cbn.
    + split; [done|]. by intros [after Heq].
    + destruct (ascii_dec a b) as [->|Hne].
      * rewrite IH. split; intros [after Heq]; exists after.
        -- by rewrite Heq.
        -- by injection Heq.
      * split; [done|]. intros [after Heq]. by injection Heq.
Qed.

Lemma str_contains_app needle haystack :
  str_contains needle haystack = true
  <-> exists before after, haystack = before +:+ needle +:+ after.
Proof.
  induction haystack as [|c haystack IH]; cbn [str_contains].
  - destruct (String.prefix needle EmptyString) eqn:Hp.
    + split; [intros _|done]. apply prefix_app in Hp as [after Heq].
      by exists EmptyString, after.
    + split; [done|]. intros (before & after & Heq).
      destruct before; [|done]. change (EmptyString +:+ ?x) with x in Heq.
      assert (String.prefix needle EmptyString = true) as Hp'
        by (apply prefix_app; eauto). congruence.
  - destruct (String.prefix needle (String c haystack)) eqn:Hp.
    + split; [intros _|done]. apply prefix_app in Hp as [after Heq].
      by exists EmptyString, after.
    + rewrite IH. split; intros (before & after & Heq).
      * exists (String c before), after. by rewrite Heq.
      * destruct before as [|c' before].
        -- change (EmptyString +:+ ?x) with x in Heq.
           assert (String.prefix needle (String c haystack) = true) as Hp'
             by (apply prefix_app; eauto). congruence.
        -- exists before, after. by injection Heq.
Qed.

(** Unfold the plumbing of a computation, down to the calls it makes. *)
Ltac plumbing :=
  unfold run, try_except, try_except_on, is_Exception, http_get,
    send_message_call, send_photo_call, call, when, log, raise,
    response_json, call_exception_object;
  unfold mbind, mret, M_bind, M_ret.

(** Membership in an explicit list, turned into equations and used. *)
Ltac members :=
  repeat match goal with
  | H : _ ∈ [] |- _ => by apply elem_of_nil in H
  | H : _ ∈ _ :: _ |- _ => apply elem_of_cons in H; destruct H as [H|H]
  end; simplify_eq.

(** ** [parse_answer] *)

Lemma parse_answer_logs response w past :
  Forall is_log (fst (run (parse_answer response) w past)).
Proof.
  unfold parse_answer. plumbing.
  destruct (json response) as [v|e].
  - destruct v as [| | | | |[|[] ?]|]; cbn; try (repeat constructor).
    destruct (fields !! "url"); repeat constructor.
  - destruct e; cbn; repeat constructor.
Qed.

Lemma parse_answer_pure response w past w' past' :
  run (parse_answer response) w past = run (parse_answer response) w' past'.
Proof.
  unfold parse_answer. plumbing.
  destruct (json response) as [v|e].
  - destruct v as [| | | | |[|[] ?]|]; cbn; try reflexivity.
    destruct (fields !! "url"); reflexivity.
  - destruct e; reflexivity.
Qed.

Lemma parses_run response w past :
  parses response (snd (run (parse_answer response) w past)).
Proof.
  intros w' past'. by rewrite (parse_answer_pure response w' past' w past).
Qed.

Lemma parses_functional r out out' (w : World) :
  parses r out -> parses r out' -> out = out'.
Proof. intros H H'. by rewrite <- (H w []), <- (H' w []). Qed.

Lemma parse_answer_url response fields url rest w past :
  json response = Returned (VList (VDict fields :: rest)) ->
  fields !! "url" = Some url ->
  run (parse_answer response) w past =
    ([Log INFO "Проверка ответа от API на корректность выполнена успешно."],
     Returned url).
Proof.
  intros Hjson Hurl. unfold parse_answer. plumbing.
  rewrite Hjson. cbn. by rewrite Hurl.
Qed.

(** Step 1 of the validation: the [except] clause logs, then fails on the
    call of the exception object. *)
Lemma parse_answer_not_json response msg w past :
  json response = Raised (JSONDecodeError msg) ->
  run (parse_answer response) w past =
    ([Log ERROR text_not_json],
     Raised (TypeError "'JSONDecodeError' object is not callable")).
Proof.
  intros Hjson. unfold parse_answer. plumbing. by rewrite Hjson.
Qed.

(** Steps 2 to 5 of the validation, each with the class it raises. *)
Lemma parse_answer_not_list response v w past :
  json response = Returned v ->
  (forall items, v ≠ VList items) ->
  snd (run (parse_answer response) w past)
  = Raised (TypeError (text_not_list v)).
Proof.
  intros Hjson Hv. unfold parse_answer. plumbing. rewrite Hjson.
  destruct v; try reflexivity. by destruct (Hv items).
Qed.

Lemma parse_answer_empty response w past :
  json response = Returned (VList []) ->
  snd (run (parse_answer response) w past) = Raised (ValueError text_empty).
Proof.
  intros Hjson. unfold parse_answer. plumbing. by rewrite Hjson.
Qed.

Lemma parse_answer_not_dict response first rest w past :
  json response = Returned (VList (first :: rest)) ->
  (forall fields, first ≠ VDict fields) ->
  snd (run (parse_answer response) w past)
  = Raised (TypeError (text_not_dict first)).
Proof.
  intros Hjson Hv. unfold parse_answer. plumbing. rewrite Hjson.
  destruct first; try reflexivity. by destruct (Hv fields).
Qed.

Lemma parse_answer_no_url response fields rest w past :
  json response = Returned (VList (VDict fields :: rest)) ->
  fields !! "url" = None ->
  snd (run (parse_answer response) w past) = Raised (KeyError text_no_url).
Proof.
  intros Hjson Hurl. unfold parse_answer. plumbing.
  rewrite Hjson. cbn. by rewrite Hurl.
Qed.

(** ** [send_message] *)

Lemma send_message_runs chat text w past :
  exists out,
    deliveries (fst (run (send_message chat text) w past))
      = [(sendText chat text, out)]
    /\ exchanges (fst (run (send_message chat text) w past)) = []
    /\ markups (fst (run (send_message chat text) w past)) = [MARKUP]
    /\ snd (run (send_message chat text) w past) = Returned tt.
Proof.
  unfold send_message. plumbing.
  destruct (bot_send_message w past chat text MARKUP) as [[]|e];
    eexists; cbn; done.
Qed.

Lemma send_message_trace chat text w past :
  exists lvl msg,
    fst (run (send_message chat text) w past)
    = [SendMessage chat text MARKUP
         (bot_send_message w past chat text MARKUP);
       Log lvl msg]
    /\ snd (run (send_message chat text) w past) = Returned tt.
Proof.
  unfold send_message. plumbing.
  destruct (bot_send_message w past chat text MARKUP) as [[]|e];
    by do 2 eexists.
Qed.

(** ** [get_response] *)

(** Every run of [get_response] is one of the four of [fetch_run]; it
    touches the gateway nowhere, and its first request is the one to the
    primary endpoint. *)
Lemma get_response_runs w past :
  fetch_run (exchanges (fst (run get_response w past)))
            (snd (run get_response w past))
  /\ deliveries (fst (run get_response w past)) = []
  /\ head (exchanges (fst (run get_response w past)))
     = Some (DEFAULT_ENDPOINT, requests_get w past DEFAULT_ENDPOINT).
Proof.
  assert (Hbackup : forall e past1 evs1 o1,
    failed o1 ->
    exchanges evs1 = [(DEFAULT_ENDPOINT, o1)] -> deliveries evs1 = [] ->
    let '(evs2, out) := backup_attempt e w past1 in
    fetch_run (exchanges (evs1 ++ evs2)) out
    /\ deliveries (evs1 ++ evs2) = []).
  { intros e past1 evs1 o1 Hf Hx Hd. unfold backup_attempt. plumbing.
    match goal with |- context [requests_get w ?h BACKUP_ENDPOINT] =>
      destruct (requests_get w h BACKUP_ENDPOINT) as [r2|e2] end;
      [destruct (Z.eqb_spec (status_code r2) HTTPStatus_OK)|];
      cbn [negb];
      rewrite exchanges_app, deliveries_app, Hx, Hd;
      cbn; split; by try constructor. }
  unfold get_response, primary_attempt. plumbing.
  destruct (requests_get w past DEFAULT_ENDPOINT) as [r1|e1] eqn:H1.
  - destruct (Z.eqb_spec (status_code r1) HTTPStatus_OK) as [Hok|Hne].
    + cbn. split; [|done]. by constructor.
    + cbn [negb]. cbv iota beta zeta.
      match goal with |- context [backup_attempt ?e w ?h] =>
        specialize (Hbackup e h
          [HttpGet DEFAULT_ENDPOINT (Returned r1);
           Log ERROR (text_unavailable DEFAULT_ENDPOINT (status_code r1))]
          (Returned r1) Hne eq_refl eq_refl);
        destruct (backup_attempt e w h) as [evs2 out] end.
      cbn [fst snd app] in *. destruct Hbackup as [Hrun Hd].
      split_and!; [exact Hrun | exact Hd | reflexivity].
  - cbv iota beta zeta.
    match goal with |- context [backup_attempt ?e w ?h] =>
      specialize (Hbackup e h [HttpGet DEFAULT_ENDPOINT (Raised e1)]
                    (Raised e1) I eq_refl eq_refl);
      destruct (backup_attempt e w h) as [evs2 out] end.
    cbn [fst snd app] in *. destruct Hbackup as [Hrun Hd].
    split_and!; [exact Hrun | exact Hd | reflexivity].
Qed.

(** ** The handlers *)

Lemma run_received {A} update (k : string -> M A) w past :
  has_message update = true ->
  run (received update ≫= k) w past = run (k (text_received update)) w past.
Proof.
  intros Hm. unfold received. rewrite Hm. plumbing.
  by destruct (k (text_received update) w (past ++ [])) eqn:Hk;
    rewrite app_nil_r in Hk; rewrite Hk.
Qed.

Lemma run_no_message {A} update (k : string -> M A) w past :
  has_message update = false ->
  run (received update ≫= k) w past
  = ([], Raised (AttributeError text_no_message)).
Proof. intros Hm. unfold received. by rewrite Hm. Qed.

Lemma run_log_then {A} lvl msg (k : M A) w past :
  run (log lvl msg ;; k) w past
  = (Log lvl msg :: fst (run k w (past ++ [Log lvl msg])),
     snd (run k w (past ++ [Log lvl msg]))).
Proof.
  plumbing. by destruct (k w (past ++ [Log lvl msg])).
Qed.

Lemma run_then {A B} (m : M A) (k : M B) w past a :
  snd (run m w past) = Returned a ->
  run (m ;; k) w past
  = (fst (run m w past) ++ fst (run k w (past ++ fst (run m w past))),
     snd (run k w (past ++ fst (run m w past)))).
Proof.
  plumbing. destruct (m w past) as [evs r]. cbn [fst snd]. intros ->.
  by destruct (k w (past ++ evs)).
Qed.

(** One step of a proof about a handler: the next [send_message] ends as
    [send_message_runs] says. *)
Ltac send_step :=
  match goal with |- context [send_message ?c ?t ?w ?h] =>
    let out := fresh "out" in
    let Hd := fresh "Hd" in
    let Hx := fresh "Hx" in
    let Hret := fresh "Hret" in
    let evs := fresh "evs" in
    let r := fresh "r" in
    destruct (send_message_runs c t w h) as (out & Hd & Hx & _ & Hret);
    unfold run in Hd, Hx, Hret;
    destruct (send_message c t w h) as [evs r];
    cbn [fst snd] in Hd, Hx, Hret; subst r
  end.

(** Project a trace of known parts on the exchanges and the deliveries. *)
Ltac observe :=
  cbn [fst snd];
  rewrite ?exchanges_app, ?deliveries_app;
  repeat match goal with
  | H : exchanges _ = _ |- _ => rewrite H
  | H : deliveries _ = _ |- _ => rewrite H
  end;
  cbn [exchanges deliveries omap list_omap exchange_of delivery_of app];
  rewrite ?app_nil_r.

(** The try-block of [new_image] and [wake_up], whatever the two log texts:
    every run is one of the four of [flow_run], and none raises. *)
Lemma image_flow_runs chat success (describe : exn -> string) w past :
  let flow :=
    try_except
      (response ← get_response;
       image ← parse_answer response;
       send_photo_call chat image ;;
       log INFO success)
      (fun error =>
         log ERROR (describe error) ;;
         let text := text_apology in
         send_message chat text) in
  flow_run chat (exchanges (fst (run flow w past)))
                (deliveries (fst (run flow w past)))
  /\ snd (run flow w past) = Returned tt.
Proof.
  intros flow. subst flow. plumbing.
  destruct (get_response_runs w past) as (Hfetch & Hquiet & _).
  unfold run in Hfetch, Hquiet.
  destruct (get_response w past) as [evs_f [r|e]]; cbn [fst snd] in *.
  - pose proof (parses_run r w (past ++ evs_f)) as Hparse.
    destruct (logs_silent _ (parse_answer_logs r w (past ++ evs_f)))
      as [Hpx Hpd].
    unfold run in Hparse, Hpx, Hpd.
    destruct (parse_answer r w (past ++ evs_f)) as [evs_p [image|e]];
      cbn [fst snd] in *.
    + destruct (bot_send_photo w _ chat image) as [[]|e].
      * split; [|done]. observe. eapply flow_photo_sent; eassumption.
      * send_step. split; [|done]. observe.
        eapply flow_photo_failed; eassumption.
    + send_step. split; [|done]. observe.
      eapply flow_parse_failed; eassumption.
  - send_step. split; [|done]. observe.
    eapply flow_fetch_failed; eassumption.
Qed.

Lemma new_image_no_message update w past :
  has_message update = false ->
  run (new_image update) w past
  = ([], Raised (AttributeError text_no_message)).
Proof. apply run_no_message. Qed.

Lemma wake_up_no_message update w past :
  has_message update = false ->
  run (wake_up update) w past
  = ([], Raised (AttributeError text_no_message)).
Proof. apply run_no_message. Qed.

Lemma reply_to_message_no_message update w past :
  has_message update = false ->
  run (reply_to_message update) w past
  = ([], Raised (AttributeError text_no_message)).
Proof. apply run_no_message. Qed.

Lemma new_image_runs update w past :
  has_message update = true ->
  flow_run (chat_id update)
    (exchanges (fst (run (new_image update) w past)))
    (deliveries (fst (run (new_image update) w past)))
  /\ snd (run (new_image update) w past) = Returned tt.
Proof.
  intros Hm. unfold new_image. rewrite (run_received _ _ _ _ Hm).
  rewrite run_log_then. cbn [fst snd]. cbv zeta.
  apply (image_flow_runs (chat_id update)).
Qed.

Lemma wake_up_runs update w past :
  has_message update = true ->
  (exists out ds,
     deliveries (fst (run (wake_up update) w past))
       = (sendText (chat_id update) (text_greeting (first_name update)), out)
         :: ds
     /\ flow_run (chat_id update)
          (exchanges (fst (run (wake_up update) w past))) ds)
  /\ snd (run (wake_up update) w past) = Returned tt.
Proof.
  intros Hm. unfold wake_up. rewrite (run_received _ _ _ _ Hm).
  rewrite run_log_then. cbv zeta. set (past0 := past ++ _).
  destruct (send_message_runs (chat_id update)
              (text_greeting (first_name update)) w past0)
    as (out & Hd & Hx & _ & Hret).
  rewrite (run_then _ _ _ _ _ Hret).
  set (evs_g := fst (run (send_message _ _) w past0)) in *.
  cbn [fst snd]. split.
  - exists out. eexists. split.
    + change (Log ?l ?m :: ?evs) with ([Log l m] ++ evs).
      rewrite !deliveries_app, Hd. reflexivity.
    + change (Log ?l ?m :: ?evs) with ([Log l m] ++ evs).
      rewrite !exchanges_app, Hx.
      refine (proj1 (image_flow_runs (chat_id update) _ _ w _)).
  - refine (proj2 (image_flow_runs (chat_id update) _ _ w _)).
Qed.

Lemma reply_to_message_runs update w past :
  has_message update = true ->
  gateway_calls (fst (run (reply_to_message update) w past))
  = [sendText (chat_id update) text_cannot_chat]
  /\ http_requests (fst (run (reply_to_message update) w past)) = []
  /\ snd (run (reply_to_message update) w past) = Returned tt.
Proof.
  intros Hm. unfold reply_to_message. rewrite (run_received _ _ _ _ Hm).
  rewrite run_log_then. cbv zeta.
  unfold gateway_calls, http_requests, run. send_step.
  cbn [fst snd deliveries exchanges omap list_omap exchange_of delivery_of].
  fold (deliveries evs) (exchanges evs). by rewrite Hd, Hx.
Qed.

(** *** What the four runs of the image flow let an observer conclude *)

(** The secondary endpoint was asked and did not yield a success. *)
Lemma flow_run_fetch_failed chat xs ds out :
  flow_run chat xs ds ->
  (BACKUP_ENDPOINT, out) ∈ xs -> failed out ->
  fst <$> ds = [sendText chat text_apology].
Proof.
  intros Hflow Hin Hfailed.
  destruct Hflow as [xs e' out' Hf | xs r e' out' Hf Hp
                    | xs r image e' out' Hf Hp | xs r image Hf Hp];
    [done..| |]; inversion Hf; subst; members; by destruct Hfailed.
Qed.

(** An endpoint answered 200 with a payload [parse_answer] rejects. *)
Lemma flow_run_rejected chat xs ds url r e (w : World) :
  flow_run chat xs ds ->
  (url, Returned r) ∈ xs -> status_code r = HTTPStatus_OK ->
  parses r (Raised e) ->
  fst <$> ds = [sendText chat text_apology]
  /\ (url = DEFAULT_ENDPOINT -> fst <$> xs = [DEFAULT_ENDPOINT]).
Proof.
  intros Hflow Hin Hok Hparse.
  destruct Hflow as [xs e' out Hf | xs r' e' out Hf Hp
                    | xs r' image e' out Hf Hp | xs r' image Hf Hp];
    inversion Hf; subst; members;
    try (by destruct (failed_ok r Hok));
    try (by pose proof (parses_functional _ _ _ w Hparse Hp));
    split; try done; intros Heq; by destruct endpoints_differ.
Qed.

(** An endpoint answered 200 with a payload [parse_answer] accepts. *)
Lemma flow_run_accepted chat xs ds url r image (w : World) :
  flow_run chat xs ds ->
  (url, Returned r) ∈ xs -> status_code r = HTTPStatus_OK ->
  parses r (Returned image) ->
  exists out,
    (sendImage chat image, out) ∈ ds
    /\ fst <$> ds
       = sendImage chat image
         :: match out with
            | Returned _ => []
            | Raised _ => [sendText chat text_apology]
            end.
Proof.
  intros Hflow Hin Hok Hparse.
  destruct Hflow as [xs e' out Hf | xs r' e' out Hf Hp
                    | xs r' image' e' out Hf Hp | xs r' image' Hf Hp];
    inversion Hf; subst; members;
    try (by destruct (failed_ok r Hok));
    try (by pose proof (parses_functional _ _ _ w Hparse Hp));
    pose proof (parses_functional _ _ _ w Hparse Hp) as [= ->];
    (by exists (Returned tt); split; [left|])
    || (by exists (Raised e'); split; [left|]).
Qed.

(** The photo was refused. *)
Lemma flow_run_refused chat xs ds c image e :
  flow_run chat xs ds ->
  (sendImage c image, Raised e) ∈ ds ->
  fst <$> ds = [sendImage c image; sendText chat text_apology].
Proof.
  intros Hflow Hin.
  destruct Hflow as [xs e' out Hf | xs r' e' out Hf Hp
                    | xs r' image' e' out Hf Hp | xs r' image' Hf Hp];
    by members.
Qed.

(** ** The registered handlers *)

Lemma dispatch_start update :
  bot_command update = Some "start" -> dispatch update = wake_up update.
Proof.
  intros Hc. unfold dispatch, handlers. cbn [process_update].
  unfold CommandHandler_check. by rewrite Hc.
Qed.

Lemma dispatch_not_start update :
  bot_command update ≠ Some "start" ->
  CommandHandler_check "start" update = false.
Proof.
  intros Hc. unfold CommandHandler_check.
  destruct (bot_command update) as [c|]; [|done].
  apply String.eqb_neq. congruence.
Qed.

Lemma dispatch_button update :
  bot_command update ≠ Some "start" -> message_text update = BUTTON ->
  dispatch update = new_image update.
Proof.
  intros Hc Htext. unfold dispatch, handlers. cbn [process_update].
  rewrite (dispatch_not_start _ Hc).
  unfold Filters_text_in. by rewrite Htext.
Qed.

Lemma dispatch_other_text update :
  bot_command update ≠ Some "start" ->
  message_text update ≠ EmptyString ->
  str_contains (message_text update) BUTTON = false ->
  dispatch update = reply_to_message update.
Proof.
  intros Hc Htext Hsub. unfold dispatch, handlers. cbn [process_update].
  rewrite (dispatch_not_start _ Hc).
  unfold Filters_text_in, Filters_text. rewrite Hsub.
  by destruct (message_text update).
Qed.

(** What [Filters.text(BUTTON)] lets through: every non-empty piece of the
    label. *)
Lemma dispatch_piece_of_button update :
  bot_command update ≠ Some "start" ->
  message_text update ≠ EmptyString ->
  str_contains (message_text update) BUTTON = true ->
  dispatch update = new_image update.
Proof.
  intros Hc Htext Hsub. unfold dispatch, handlers. cbn [process_update].
  rewrite (dispatch_not_start _ Hc).
  unfold Filters_text_in. rewrite Hsub.
  by destruct (message_text update).
Qed.

(** ** Runs by what the world answers *)







Lemma refuses_later w past evs chat image e :
  refuses w past chat image e -> refuses w (past ++ evs) chat image e.
Proof. intros H evs'. rewrite <- app_assoc. apply H. Qed.



Lemma get_response_backup_next w past :
  failed (requests_get w past DEFAULT_ENDPOINT) ->
  exists logs,
    let o1 := requests_get w past DEFAULT_ENDPOINT in
    let o2 := requests_get w ((past ++ [HttpGet DEFAULT_ENDPOINT o1]) ++ logs)
                BACKUP_ENDPOINT in
    Forall is_log logs
    /\ exchanges (fst (run get_response w past))
       = [(DEFAULT_ENDPOINT, o1); (BACKUP_ENDPOINT, o2)]
    /\ snd (run get_response w past)
       = match o2 with
         | Raised e => Raised e
         | Returned r =>
             if Z.eqb (status_code r) HTTPStatus_OK then Returned r
             else Raised (APIAnswerStatusCodeError
                            (text_unavailable BACKUP_ENDPOINT
                               (status_code r)))
         end.
Proof.
  intros Hf. unfold get_response, primary_attempt, backup_attempt. plumbing.
  destruct (requests_get w past DEFAULT_ENDPOINT) as [r1|e1].
  - apply Z.eqb_neq in Hf. rewrite Hf. cbn [negb].
    rewrite <- !app_assoc. cbn [app].
    match goal with
    | |- context [requests_get w (past ++ _ :: ?logs) BACKUP_ENDPOINT] =>
        exists logs
    end.
    cbv zeta. rewrite <- !app_assoc. cbn [app].
    split; [by repeat constructor|].
    destruct (requests_get w _ BACKUP_ENDPOINT) as [r2|e2]; [|done].
    by destruct (Z.eqb (status_code r2) HTTPStatus_OK).
  - rewrite <- !app_assoc. cbn [app].
    match goal with
    | |- context [requests_get w (past ++ _ :: ?logs) BACKUP_ENDPOINT] =>
        exists logs
    end.
    cbv zeta. rewrite <- !app_assoc. cbn [app].
    split; [by repeat constructor|].
    destruct (requests_get w _ BACKUP_ENDPOINT) as [r2|e2]; [|done].
    by destruct (Z.eqb (status_code r2) HTTPStatus_OK).
Qed.



(** The try-block of the image handlers, by what the world answers. *)
Lemma image_flow_outcome chat success (describe : exn -> string) w past :
  let flow :=
    try_except
      (response ← get_response;
       image ← parse_answer response;
       send_photo_call chat image ;;
       log INFO success)
      (fun error =>
         log ERROR (describe error) ;;
         let text := text_apology in
         send_message chat text) in
  flow_outcome chat w past (exchanges (fst (run flow w past)))
                           (deliveries (fst (run flow w past))).
Proof.
  intros flow. subst flow. unfold flow_outcome. plumbing.
  destruct (get_response_runs w past) as (_ & Hquiet & _).
  unfold run in Hquiet.
  destruct (get_response w past) as [evs_f [r|e]]; cbn [fst snd] in *.
  - pose proof (parse_answer_pure r w past w (past ++ evs_f)) as Hpure.
    destruct (logs_silent _ (parse_answer_logs r w (past ++ evs_f)))
      as [Hpx Hpd].
    unfold run in Hpx, Hpd, Hpure. rewrite Hpure.
    destruct (parse_answer r w (past ++ evs_f)) as [evs_p [image|e]];
      cbn [fst snd] in *.
    + rewrite <- app_assoc.
      destruct (bot_send_photo w (past ++ evs_f ++ evs_p) chat image)
        as [[]|e] eqn:Hphoto.
      * observe. split; [done|]. exists (evs_f ++ evs_p), (Returned tt).
        by rewrite Hphoto.
      * send_step. observe. split; [done|]. exists (evs_f ++ evs_p), out.
        by rewrite Hphoto.
    + send_step. observe. split; [done|]. by exists out.
  - send_step. observe. split; [done|]. by exists out.
Qed.


Lemma wake_up_outcome update w past :
  has_message update = true ->
  exists out evs ds,
    fst (run (wake_up update) w past)
    = Log DEBUG (text_received update)
      :: SendMessage (chat_id update) (text_greeting (first_name update))
           MARKUP out
      :: evs
    /\ out = bot_send_message w (past ++ [Log DEBUG (text_received update)])
               (chat_id update) (text_greeting (first_name update)) MARKUP
    /\ deliveries (fst (run (wake_up update) w past))
       = (sendText (chat_id update) (text_greeting (first_name update)), out)
         :: ds
    /\ exists pre,
         flow_outcome (chat_id update) w (past ++ pre)
           (exchanges (fst (run (wake_up update) w past))) ds.
Proof.
  intros Hm. unfold wake_up. rewrite (run_received _ _ _ _ Hm).
  rewrite run_log_then. cbv zeta. set (past0 := past ++ _).
  destruct (send_message_trace (chat_id update)
              (text_greeting (first_name update)) w past0)
    as (lvl & msg & Htrace & Hret).
  rewrite (run_then _ _ _ _ _ Hret). rewrite Htrace. cbn [fst snd app].
  set (out := bot_send_message w past0 _ _ _).
  set (greeted := [SendMessage _ _ MARKUP out; Log lvl msg]).
  set (flow := try_except _ _).
  exists out. eexists. exists (deliveries (fst (run flow w (past0 ++ greeted)))).
  split; [reflexivity|]. split; [done|]. split; [reflexivity|].
  exists ([Log DEBUG (text_received update)] ++ greeted).
  rewrite app_assoc. fold past0.
  change (exchanges (Log ?l ?m :: greeted ++ ?evs)) with (exchanges evs).
  subst flow. refine (image_flow_outcome (chat_id update) _ _ w _).
Qed.




(** ** The properties of the specification *)

Import Scenario.

(** C1: on a payload that decodes to a non-empty list whose first element is
    an object with the key url, [parse_answer] returns the value of that
    key; any other response of this shape with the same first url, whatever
    its other fields and its later elements, gives the very same run. *)
Theorem parse_answer_first_url (response : Response)
    (fields : gmap string value) (url : value) (rest : list value)
    (w : World) (past : list event) :
  json response = Returned (VList (VDict fields :: rest)) ->
  fields !! "url" = Some url ->
  snd (run (parse_answer response) w past) = Returned url
  /\ forall response' fields' rest' w' past',
       json response' = Returned (VList (VDict fields' :: rest')) ->
       fields' !! "url" = Some url ->
       run (parse_answer response') w' past'
       = run (parse_answer response) w past.
Proof.
  intros Hjson Hurl. rewrite (parse_answer_url _ _ _ _ _ _ Hjson Hurl).
  split; [done|]. intros response' fields' rest' w' past' Hjson' Hurl'.
  by rewrite (parse_answer_url _ _ _ _ _ _ Hjson' Hurl').
Qed.

Lemma parse_answer_first_url_witness :
  json (respond 200 (Returned busy_payload)) = Returned busy_payload
  /\ snd (run (parse_answer (respond 200 (Returned busy_payload))) fine [])
     = Returned cat_png
  /\ run (parse_answer (respond 200 (Returned cat_payload))) down []
     = run (parse_answer (respond 200 (Returned busy_payload))) fine [].
Proof.
  split; [reflexivity|].
  destruct (parse_answer_first_url (respond 200 (Returned busy_payload))
              (<[ "id" := VStr "a1" ]> (<[ "width" := VInt 640 ]>
                 {[ "url" := cat_png ]}))
              cat_png [VDict {[ "url" := dog_png ]}; VInt 3] fine [])
    as [Hvalue Hsame]; [reflexivity | vm_compute; reflexivity |].
  split; [exact Hvalue|].
  apply (Hsame (respond 200 (Returned cat_payload)) {[ "url" := cat_png ]} []);
    [reflexivity | vm_compute; reflexivity].
Defined.

(** C2, at a body that is not JSON: the [except] clause calls the exception
    object it caught, so what leaves [parse_answer] is the TypeError of that
    call, the class of the two shape errors, and no error of the decoding. *)
Theorem parse_answer_not_json_raises_TypeError :
  snd (run (parse_answer (respond 200 not_json)) fine [])
  = Raised (TypeError "'JSONDecodeError' object is not callable")
  /\ error_kind (TypeError "'JSONDecodeError' object is not callable")
     = Some UnexpectedShape
  /\ error_kind (TypeError (text_not_list quota_payload))
     = Some UnexpectedShape.
Proof. split_and!; reflexivity. Qed.

(** C3: in every run of [get_response] the secondary endpoint is requested
    if and only if the primary attempt raised or answered with a status
    other than 200; then the requests are exactly one to the primary and one
    to the secondary endpoint, and otherwise the one to the primary. *)
Theorem get_response_fallback_iff (w : World) (past : list event) :
  let trace := fst (run get_response w past) in
  let primary := requests_get w past DEFAULT_ENDPOINT in
  (BACKUP_ENDPOINT ∈ http_requests trace <-> failed primary)
  /\ (failed primary ->
      http_requests trace = [DEFAULT_ENDPOINT; BACKUP_ENDPOINT])
  /\ (¬ failed primary -> http_requests trace = [DEFAULT_ENDPOINT]).
Proof.
  intros trace primary. subst trace primary.
  destruct (get_response_runs w past) as (Hfetch & _ & Hhead).
  unfold http_requests. revert Hhead.
  destruct Hfetch as [r Hok | o1 r Hf Hok | o1 r Hf Hne | o1 e Hf];
    cbn; intros [= <-].
  - split_and!; [|done..]. split; [intros Hin; members | done].
  - split_and!; [|done..]. split; [done|]. intros _. set_solver.
  - split_and!; [|done..]. split; [done|]. intros _. set_solver.
  - split_and!; [|done..]. split; [done|]. intros _. set_solver.
Qed.

(** C4: when the primary endpoint answered 200 with a payload that
    [parse_answer] rejects, a handler issues the one request to the primary
    endpoint and none to the secondary one, and sends the apology: the
    parsing is outside the try-block of [get_response]. *)
Theorem parse_failure_never_falls_back (update : Update) (w : World)
    (past : list event) (r : Response) (e : exn) :
  status_code r = HTTPStatus_OK ->
  parses r (Raised e) ->
  (let trace := fst (run (new_image update) w past) in
   (DEFAULT_ENDPOINT, Returned r) ∈ exchanges trace ->
   http_requests trace = [DEFAULT_ENDPOINT]
   /\ gateway_calls trace = [sendText (chat_id update) text_apology])
  /\ (let trace := fst (run (wake_up update) w past) in
      (DEFAULT_ENDPOINT, Returned r) ∈ exchanges trace ->
      http_requests trace = [DEFAULT_ENDPOINT]
      /\ gateway_calls trace
         = [sendText (chat_id update) (text_greeting (first_name update));
            sendText (chat_id update) text_apology]).
Proof.
  intros Hok Hparse.
  destruct (has_message update) eqn:Hm; cycle 1.
  { rewrite (new_image_no_message _ _ _ Hm), (wake_up_no_message _ _ _ Hm).
    split; intros trace Hin; by apply elem_of_nil in Hin. }
  split; intros trace Hin; subst trace.
  - destruct (new_image_runs update w past Hm) as [Hflow _].
    destruct (flow_run_rejected _ _ _ _ r e w Hflow Hin Hok Hparse)
      as [Hd Hx].
    split; [by apply Hx | exact Hd].
  - destruct (wake_up_runs update w past Hm) as [(out & ds & Hds & Hflow) _].
    destruct (flow_run_rejected _ _ _ _ r e w Hflow Hin Hok Hparse)
      as [Hd Hx].
    split; [by apply Hx|].
    unfold gateway_calls. by rewrite Hds, fmap_cons, Hd.
Qed.

Lemma parse_failure_never_falls_back_witness :
  http_requests (fst (run (new_image ann_presses) quota []))
  = [DEFAULT_ENDPOINT]
  /\ http_requests (fst (run (wake_up ann_presses) quota []))
     = [DEFAULT_ENDPOINT].
Proof.
  destruct (parse_failure_never_falls_back ann_presses quota []
              (respond 200 (Returned quota_payload))
              (TypeError (text_not_list quota_payload)))
    as [Hnew Hwake].
  - reflexivity.
  - intros w past. reflexivity.
  - split.
    + apply Hnew. vm_compute. left.
    + apply Hwake. vm_compute. left.
Defined.

(** C5: when the primary attempt fails and the secondary endpoint, asked
    after that exchange, responds with a status other than 200,
    [get_response] asks the primary and then the secondary endpoint and
    raises APIAnswerStatusCodeError with a message
    that holds the URL of the secondary endpoint and the status code of its
    response. *)
Theorem get_response_backup_unavailable (w : World) (past : list event)
    (r : Response) :
  let primary := requests_get w past DEFAULT_ENDPOINT in
  failed primary ->
  answers_next w (past ++ [HttpGet DEFAULT_ENDPOINT primary])
    BACKUP_ENDPOINT (Returned r) ->
  status_code r ≠ HTTPStatus_OK ->
  http_requests (fst (run get_response w past))
  = [DEFAULT_ENDPOINT; BACKUP_ENDPOINT]
  /\ snd (run get_response w past)
     = Raised (APIAnswerStatusCodeError
         ("Эндпоинт " +:+ BACKUP_ENDPOINT +:+ " недоступен. Код ответа API: "
          +:+ pretty (status_code r) +:+ ".")).
Proof.
  intros primary Hf Hr Hne; subst primary.
  destruct (get_response_backup_next w past Hf) as (logs & Hlogs & Hx & Hret).
  cbv zeta in Hx, Hret. unfold http_requests.
  rewrite Hx, Hret, (Hr logs Hlogs).
  apply Z.eqb_neq in Hne. by rewrite Hne.
Qed.

Lemma get_response_backup_unavailable_witness :
  http_requests (fst (run get_response degraded []))
  = [DEFAULT_ENDPOINT; BACKUP_ENDPOINT]
  /\ snd (run get_response degraded [])
     = Raised (APIAnswerStatusCodeError
         ("Эндпоинт https://api.thedogapi.com/v1/images/search недоступен. "
          +:+ "Код ответа API: 503.")).
Proof.
  apply (get_response_backup_unavailable degraded []
           (respond 503 not_json)).
  - discriminate.
  - intros logs _. reflexivity.
  - discriminate.
Defined.








(** C9, at a text that is a piece of the button label: [main] gives
    [Filters.text] the label itself, so the text is matched by containment
    and goes to [new_image]; a request is issued and a photo is sent, where
    the handler of other texts would have sent its one fixed text. *)
Theorem dispatch_piece_of_label_fetches :
  message_text (ann_says "котика") ≠ BUTTON
  /\ bot_command (ann_says "котика") = None
  /\ dispatch (ann_says "котика") = new_image (ann_says "котика")
  /\ http_requests (fst (run (dispatch (ann_says "котика")) fine []))
     = [DEFAULT_ENDPOINT]
  /\ gateway_calls (fst (run (dispatch (ann_says "котика")) fine []))
     = [sendImage 7 cat_png]
  /\ gateway_calls (fst (run (reply_to_message (ann_says "котика")) fine []))
     = [sendText 7 text_cannot_chat].
Proof. split_and!; try discriminate; vm_compute; reflexivity. Qed.




(** ** Further properties of the code *)

Import Cases.

(** *** Footprints compose along the structure of a computation *)

Section Footprint.

Variable P : event -> Prop.

Lemma keeps_ret {A} (a : A) : keeps P (mret a).
Proof. intros w past. constructor. Qed.

Lemma keeps_raise {A} (e : exn) : keeps P (raise (A:=A) e).
Proof. intros w past. constructor. Qed.

Lemma keeps_bind {A B} (m : M A) (k : A -> M B) :
  keeps P m -> (forall a, keeps P (k a)) -> keeps P (m ≫= k).
Proof.
  intros Hm Hk w past. specialize (Hm w past). plumbing.
  unfold run in Hm. destruct (m w past) as [evs [a|e]]; [|done].
  specialize (Hk a w (past ++ evs)). unfold run in Hk.
  destruct (k a w (past ++ evs)) as [evs' r]. by apply Forall_app.
Qed.

Lemma keeps_try {A} named (body : M A) (handler : exn -> M A) :
  keeps P body -> (forall e, keeps P (handler e)) ->
  keeps P (try_except_on named body handler).
Proof.
  intros Hm Hk w past. specialize (Hm w past). plumbing.
  unfold run in Hm. destruct (body w past) as [evs [a|e]]; [done|].
  destruct (named e); [|done].
  specialize (Hk e w (past ++ evs)). unfold run in Hk.
  destruct (handler e w (past ++ evs)) as [evs' r]. by apply Forall_app.
Qed.

Lemma keeps_log lvl msg : P (Log lvl msg) -> keeps P (log lvl msg).
Proof. intros HP w past. by constructor. Qed.

Lemma keeps_call {A} ask (record : outcome A -> event) :
  (forall out, P (record out)) -> keeps P (call ask record).
Proof. intros HP w past. by constructor. Qed.

Lemma keeps_when cond body : keeps P body -> keeps P (when cond body).
Proof. intros Hb. destruct cond; [done|]. apply keeps_ret. Qed.

Lemma keeps_logs {A} (m : M A) :
  (forall lvl msg, P (Log lvl msg)) ->
  (forall w past, Forall is_log (fst (run m w past))) ->
  keeps P m.
Proof.
  intros HP Hlogs w past. eapply Forall_impl; [apply Hlogs|].
  by intros [].
Qed.

End Footprint.

Create HintDb footprints.

(** Follow the structure of a computation down to its logs and calls; a
    function whose footprint is known is not opened again. *)
Ltac footprint :=
  repeat first
    [ solve [auto with footprints]
    | apply keeps_ret
    | apply keeps_raise
    | apply keeps_log; cbn
    | apply keeps_call; intros ?; cbn
    | apply keeps_when
    | apply keeps_try; [|intros ?]
    | apply keeps_bind; [|intros ?] ].

(** *** Every handler is polite *)

Lemma get_response_polite update : keeps (polite update) get_response.
Proof.
  unfold get_response, try_except, primary_attempt, backup_attempt, http_get.
  footprint; auto.
Qed.

Lemma parse_answer_polite update response :
  keeps (polite update) (parse_answer response).
Proof. apply keeps_logs; [done|]. apply parse_answer_logs. Qed.

Lemma send_message_polite update text :
  text = text_greeting (first_name update)
  \/ text = text_apology \/ text = text_cannot_chat ->
  keeps (polite update) (send_message (chat_id update) text).
Proof.
  intros Htext. unfold send_message, try_except, send_message_call.
  footprint; auto.
Qed.

Lemma received_polite update : keeps (polite update) (received update).
Proof. unfold received. destruct (has_message update); footprint. Qed.

#[local] Hint Resolve get_response_polite parse_answer_polite
  send_message_polite received_polite : footprints.

Lemma new_image_polite update : keeps (polite update) (new_image update).
Proof.
  unfold new_image, try_except, send_photo_call. footprint; auto.
Qed.

Lemma wake_up_polite update : keeps (polite update) (wake_up update).
Proof.
  unfold wake_up, try_except, send_photo_call. footprint; auto.
Qed.

Lemma reply_to_message_polite update :
  keeps (polite update) (reply_to_message update).
Proof.
  unfold reply_to_message. footprint; auto.
Qed.

(** The gateway gives an update to one handler, or to none. *)
Lemma dispatch_cases update :
  dispatch update = wake_up update
  \/ dispatch update = new_image update
  \/ dispatch update = reply_to_message update
  \/ dispatch update = mret tt.
Proof.
  unfold dispatch, handlers. cbn [process_update].
  destruct (CommandHandler_check "start" update); [by left|].
  destruct (Filters_text_in BUTTON update); [by right; left|].
  destruct (Filters_text update); [by right; right; left|].
  by right; right; right.
Qed.

Lemma dispatch_polite update : keeps (polite update) (dispatch update).
Proof.
  destruct (dispatch_cases update) as [-> | [-> | [-> | ->]]];
    auto using wake_up_polite, new_image_polite, reply_to_message_polite,
      keeps_ret.
Qed.

(** *** [send_message] *)

(** X1: [send_message] makes exactly one call of the gateway, with the text
    and the keyboard of the one button, makes no request, logs one record
    (INFO when the call returned, ERROR when it raised) and returns even
    when the gateway raises. *)
Theorem send_message_swallows_failure (chat : Z) (text : string)
    (w : World) (past : list event) :
  exists out lvl msg,
    run (send_message chat text) w past
    = ([SendMessage chat text (from_button BUTTON true) out; Log lvl msg],
       Returned tt)
    /\ out = bot_send_message w past chat text MARKUP
    /\ lvl = match out with Returned _ => INFO | Raised _ => ERROR end.
Proof.
  unfold send_message. plumbing.
  destruct (bot_send_message w past chat text MARKUP) as [[]|e];
    do 3 eexists; split_and!; reflexivity.
Qed.

(** *** [reply_to_message] and the routing of [main] *)

(** X2: for an update with a message, [reply_to_message] sends its one
    fixed text to the chat of the update, issues no request and returns,
    whatever the text of the update and whatever the gateway does. *)
Theorem reply_to_message_one_fixed_text (update : Update) (w : World)
    (past : list event) :
  has_message update = true ->
  gateway_calls (fst (run (reply_to_message update) w past))
  = [sendText (chat_id update)
       ("К сожалению, я не умею общаться. Но зато мастерски ищу "
        +:+ "фотографии котиков.")]
  /\ http_requests (fst (run (reply_to_message update) w past)) = []
  /\ snd (run (reply_to_message update) w past) = Returned tt.
Proof. apply reply_to_message_runs. Qed.

Lemma reply_to_message_one_fixed_text_witness :
  gateway_calls (fst (run (reply_to_message (ann_says "hello")) muted []))
  = [sendText 7 text_cannot_chat]
  /\ http_requests (fst (run (reply_to_message (ann_says "hello")) muted []))
     = []
  /\ snd (run (reply_to_message (ann_says "hello")) muted []) = Returned tt.
Proof.
  apply (reply_to_message_one_fixed_text (ann_says "hello") muted []).
  reflexivity.
Defined.

(** X3: without the command start, an update with a text goes to
    [new_image] exactly when its text occurs in the button label as a
    contiguous piece, and to [reply_to_message] otherwise. *)
Theorem dispatch_by_containment (update : Update) :
  bot_command update ≠ Some "start" ->
  message_text update ≠ EmptyString ->
  ((exists before after,
      BUTTON = before +:+ message_text update +:+ after) ->
   dispatch update = new_image update)
  /\ (¬ (exists before after,
           BUTTON = before +:+ message_text update +:+ after) ->
      dispatch update = reply_to_message update).
Proof.
  intros Hc Htext. split; intros Hsub.
  - apply dispatch_piece_of_button; [done..|]. by apply str_contains_app.
  - apply dispatch_other_text; [done..|].
    destruct (str_contains (message_text update) BUTTON) eqn:Hin; [|done].
    destruct Hsub. by apply str_contains_app.
Qed.

Lemma dispatch_by_containment_witness :
  dispatch (ann_says "Подай") = new_image (ann_says "Подай")
  /\ dispatch (ann_says "hello") = reply_to_message (ann_says "hello").
Proof.
  split.
  - apply (proj1 (dispatch_by_containment (ann_says "Подай")
                    ltac:(discriminate) ltac:(discriminate))).
    exists EmptyString, " котика!". reflexivity.
  - reflexivity.
Defined.

(** X4: an update with a message, without the command start, whose text
    does not occur in the button label gets the one fixed text and causes no
    request. *)
Theorem dispatch_other_text_cannot_chat (update : Update) (w : World)
    (past : list event) :
  has_message update = true ->
  bot_command update ≠ Some "start" ->
  message_text update ≠ EmptyString ->
  str_contains (message_text update) BUTTON = false ->
  gateway_calls (fst (run (dispatch update) w past))
  = [sendText (chat_id update) text_cannot_chat]
  /\ http_requests (fst (run (dispatch update) w past)) = []
  /\ snd (run (dispatch update) w past) = Returned tt.
Proof.
  intros Hm Hc Htext Hsub. rewrite (dispatch_other_text _ Hc Htext Hsub).
  by apply reply_to_message_runs.
Qed.

Lemma dispatch_other_text_cannot_chat_witness :
  gateway_calls (fst (run (dispatch (ann_says "hello")) fine []))
  = [sendText 7 text_cannot_chat]
  /\ http_requests (fst (run (dispatch (ann_says "hello")) fine [])) = []
  /\ snd (run (dispatch (ann_says "hello")) fine []) = Returned tt.
Proof.
  apply (dispatch_other_text_cannot_chat (ann_says "hello") fine []);
    [reflexivity | discriminate | discriminate | reflexivity].
Defined.

(** X5: an update without the command start and without a text is given to
    no handler: nothing is logged, requested or sent. *)
Theorem dispatch_without_text (update : Update) (w : World)
    (past : list event) :
  bot_command update ≠ Some "start" ->
  message_text update = EmptyString ->
  run (dispatch update) w past = ([], Returned tt).
Proof.
  intros Hc Htext. unfold dispatch, handlers. cbn [process_update].
  rewrite (dispatch_not_start _ Hc).
  unfold Filters_text_in, Filters_text. by rewrite Htext.
Qed.

Lemma dispatch_without_text_witness :
  run (dispatch ann_attaches) muted [] = ([], Returned tt).
Proof.
  apply (dispatch_without_text ann_attaches muted []);
    [discriminate | reflexivity].
Defined.

(** *** What the handling of an update never does *)

(** Find an event in the trace of a scenario. *)
Ltac occurs :=
  vm_compute;
  repeat first [apply list_elem_of_here | apply list_elem_of_further].

Lemma fetch_run_requests xs out :
  fetch_run xs out ->
  fst <$> xs = [DEFAULT_ENDPOINT]
  \/ fst <$> xs = [DEFAULT_ENDPOINT; BACKUP_ENDPOINT].
Proof. destruct 1; auto. Qed.

Lemma fetch_run_returned xs r :
  fetch_run xs (Returned r) ->
  status_code r = HTTPStatus_OK
  /\ exists url, last xs = Some (url, Returned r).
Proof. inversion 1; subst; split; eauto. Qed.

Lemma fetch_run_raised xs e :
  fetch_run xs (Raised e) ->
  exists o1 o2,
    xs = [(DEFAULT_ENDPOINT, o1); (BACKUP_ENDPOINT, o2)]
    /\ failed o1 /\ failed o2
    /\ (o2 = Raised e
        \/ exists r,
             o2 = Returned r
             /\ e = APIAnswerStatusCodeError
                      (text_unavailable BACKUP_ENDPOINT (status_code r))).
Proof.
  inversion 1; subst; do 2 eexists; (split; [reflexivity|]);
    split_and!; eauto. done.
Qed.

Lemma flow_run_requests chat xs ds :
  flow_run chat xs ds ->
  fst <$> xs = [DEFAULT_ENDPOINT]
  \/ fst <$> xs = [DEFAULT_ENDPOINT; BACKUP_ENDPOINT].
Proof. destruct 1; eauto using fetch_run_requests. Qed.

Lemma flow_run_calls chat xs ds :
  flow_run chat xs ds ->
  fst <$> ds = [sendText chat text_apology]
  \/ exists image,
       fst <$> ds = [sendImage chat image]
       \/ fst <$> ds = [sendImage chat image; sendText chat text_apology].
Proof. destruct 1; eauto. Qed.

Lemma flow_run_provenance chat xs ds c image :
  flow_run chat xs ds ->
  sendImage c image ∈ fst <$> ds ->
  exists url r,
    (url, Returned r) ∈ xs
    /\ status_code r = HTTPStatus_OK
    /\ parses r (Returned image).
Proof.
  intros Hflow Hin.
  destruct Hflow as [xs e' out Hf | xs r e' out Hf Hp
                    | xs r image' e' out Hf Hp | xs r image' Hf Hp];
    cbn in Hin; members;
    destruct (fetch_run_returned _ _ Hf) as (Hok & url & Hlast);
    exists url, r; split_and!; try done;
    apply list_elem_of_lookup; exists (pred (length xs));
    by rewrite <- last_lookup.
Qed.

(** A handler given an update without a message stops at its first
    statement. *)
Lemma dispatch_no_message update w past :
  has_message update = false ->
  run (dispatch update) w past = ([], Returned tt)
  \/ run (dispatch update) w past
     = ([], Raised (AttributeError text_no_message)).
Proof.
  intros Hm. destruct (dispatch_cases update) as [-> | [-> | [-> | ->]]].
  - right. by apply wake_up_no_message.
  - right. by apply new_image_no_message.
  - right. by apply reply_to_message_no_message.
  - by left.
Qed.

(** X6: the handling of an update with a message never raises, whatever the
    endpoints and the gateway do.  An update without one (an edited message,
    a channel post) that a handler accepts makes the handler raise
    AttributeError at its first statement, before anything is logged,
    requested or sent. *)
Theorem dispatch_raises_only_without_message (update : Update) (w : World)
    (past : list event) :
  (has_message update = true ->
   snd (run (dispatch update) w past) = Returned tt)
  /\ (has_message update = false ->
      bot_command update = Some "start"
      \/ message_text update ≠ EmptyString ->
      run (dispatch update) w past
      = ([], Raised (AttributeError
                       "'NoneType' object has no attribute 'text'"))).
Proof.
  split.
  - intros Hm. destruct (dispatch_cases update) as [-> | [-> | [-> | ->]]].
    + by apply wake_up_runs.
    + by apply new_image_runs.
    + by apply reply_to_message_runs.
    + reflexivity.
  - intros Hm Haccepted. unfold dispatch, handlers. cbn [process_update].
    destruct (CommandHandler_check "start" update) eqn:Hstart;
      [by apply wake_up_no_message|].
    destruct (Filters_text_in BUTTON update);
      [by apply new_image_no_message|].
    destruct (Filters_text update) eqn:Htext;
      [by apply reply_to_message_no_message|].
    destruct Haccepted as [Hc | Ht].
    + unfold CommandHandler_check in Hstart. by rewrite Hc in Hstart.
    + unfold Filters_text in Htext. by destruct (message_text update).
Qed.

Lemma dispatch_raises_only_without_message_witness :
  snd (run (dispatch (ann_says "hello")) muted []) = Returned tt
  /\ run (dispatch (ann_edits "hello")) fine []
     = ([], Raised (AttributeError
                      "'NoneType' object has no attribute 'text'")).
Proof.
  split.
  - apply (proj1 (dispatch_raises_only_without_message
                    (ann_says "hello") muted [])).
    reflexivity.
  - apply (proj2 (dispatch_raises_only_without_message
                    (ann_edits "hello") fine []));
      [reflexivity | right; discriminate].
Defined.

(** X7: the handling of an update issues no request, one request to the
    primary endpoint, or one to the primary and then one to the secondary
    endpoint; never more, and to no other URL. *)
Theorem dispatch_requests_bounded (update : Update) (w : World)
    (past : list event) :
  let requests := http_requests (fst (run (dispatch update) w past)) in
  requests = []
  \/ requests = [DEFAULT_ENDPOINT]
  \/ requests = [DEFAULT_ENDPOINT; BACKUP_ENDPOINT].
Proof.
  intros requests; subst requests.
  destruct (has_message update) eqn:Hm; cycle 1.
  { left. by destruct (dispatch_no_message update w past Hm) as [-> | ->]. }
  unfold http_requests.
  destruct (dispatch_cases update) as [-> | [-> | [-> | ->]]].
  - destruct (wake_up_runs update w past Hm) as [(out & ds & _ & Hflow) _].
    right. eapply flow_run_requests, Hflow.
  - destruct (new_image_runs update w past Hm) as [Hflow _].
    right. eapply flow_run_requests, Hflow.
  - left. by apply reply_to_message_runs.
  - by left.
Qed.

(** X8: every call of the gateway made while an update is handled, text or
    photo, goes to the chat the update came from. *)
Theorem dispatch_answers_the_chat (update : Update) (w : World)
    (past : list event) :
  let trace := fst (run (dispatch update) w past) in
  (forall chat text markup out,
     SendMessage chat text markup out ∈ trace -> chat = chat_id update)
  /\ (forall chat photo out,
       SendPhoto chat photo out ∈ trace -> chat = chat_id update).
Proof.
  intros trace; subst trace.
  pose proof (dispatch_polite update w past) as Hpolite.
  rewrite Forall_forall in Hpolite.
  split; intros * Hin; apply Hpolite in Hin; [by destruct Hin | exact Hin].
Qed.

Lemma dispatch_answers_the_chat_witness :
  7 = chat_id ann_starts /\ 7 = chat_id ann_presses.
Proof.
  split.
  - apply (proj1 (dispatch_answers_the_chat ann_starts down [])
             7 text_apology MARKUP (Returned tt)).
    occurs.
  - apply (proj2 (dispatch_answers_the_chat ann_presses photo_refused [])
             7 cat_png (Raised refused)).
    occurs.
Defined.

(** X9: every text sent while an update is handled carries the reply
    keyboard made of the one button with the label of [BUTTON], resized. *)
Theorem dispatch_attaches_keyboard (update : Update) (w : World)
    (past : list event) (chat : Z) (text : string)
    (markup : ReplyKeyboardMarkup) (out : outcome unit) :
  SendMessage chat text markup out ∈ fst (run (dispatch update) w past) ->
  keyboard markup = [["Подай котика!"]] /\ resize_keyboard markup = true.
Proof.
  intros Hin. pose proof (dispatch_polite update w past) as Hpolite.
  rewrite Forall_forall in Hpolite.
  by destruct (Hpolite _ Hin) as (_ & -> & _).
Qed.

Lemma dispatch_attaches_keyboard_witness :
  keyboard MARKUP = [["Подай котика!"]] /\ resize_keyboard MARKUP = true.
Proof.
  apply (dispatch_attaches_keyboard ann_starts down [] 7 text_apology
           MARKUP (Returned tt)).
  occurs.
Defined.

(** X10: the only texts a user is sent are the greeting with the first name
    of the chat, the apology and the text of [reply_to_message]: no message
    of an exception and nothing an endpoint answered reaches a text. *)
Theorem dispatch_sends_fixed_texts (update : Update) (w : World)
    (past : list event) (chat : Z) (text : string)
    (markup : ReplyKeyboardMarkup) (out : outcome unit) :
  SendMessage chat text markup out ∈ fst (run (dispatch update) w past) ->
  text = "Привет, " +:+ str_optional (first_name update)
         +:+ ". Посмотри, какого котика я тебе нашёл!"
  \/ text = "К сожалению, сервис на данный момент недоступен. "
            +:+ "Попробуйте обратиться позднее."
  \/ text = "К сожалению, я не умею общаться. Но зато мастерски ищу "
            +:+ "фотографии котиков.".
Proof.
  intros Hin. pose proof (dispatch_polite update w past) as Hpolite.
  rewrite Forall_forall in Hpolite.
  by destruct (Hpolite _ Hin) as (_ & _ & Htext).
Qed.

Lemma dispatch_sends_fixed_texts_witness :
  text_apology = text_greeting (Some "Ann")
  \/ text_apology = text_apology
  \/ text_apology = text_cannot_chat.
Proof.
  apply (dispatch_sends_fixed_texts ann_starts unreachable [] 7 text_apology
           MARKUP (Returned tt)).
  occurs.
Defined.

(** X11: a photo is sent only with a value that [parse_answer] returned for
    a response an endpoint gave with status 200 during the same handling. *)
Theorem dispatch_photo_provenance (update : Update) (w : World)
    (past : list event) (chat : Z) (image : value) :
  let trace := fst (run (dispatch update) w past) in
  sendImage chat image ∈ gateway_calls trace ->
  exists url r,
    (url, Returned r) ∈ exchanges trace
    /\ status_code r = HTTPStatus_OK
    /\ parses r (Returned image).
Proof.
  intros trace; subst trace.
  destruct (has_message update) eqn:Hm; cycle 1.
  { destruct (dispatch_no_message update w past Hm) as [-> | ->];
      intros Hin; by apply elem_of_nil in Hin. }
  unfold gateway_calls.
  destruct (dispatch_cases update) as [-> | [-> | [-> | ->]]].
  - destruct (wake_up_runs update w past Hm) as [(out & ds & -> & Hflow) _].
    rewrite fmap_cons. intros [[=]|Hin]%elem_of_cons.
    eapply flow_run_provenance; eassumption.
  - destruct (new_image_runs update w past Hm) as [Hflow _].
    eapply flow_run_provenance; eassumption.
  - destruct (reply_to_message_runs update w past Hm) as (Hcalls & _).
    unfold gateway_calls in Hcalls. rewrite Hcalls. intros Hin. members.
  - cbn. intros Hin. members.
Qed.

Lemma dispatch_photo_provenance_witness :
  exists url r,
    (url, Returned r) ∈ exchanges (fst (run (dispatch ann_presses) dogs_only []))
    /\ status_code r = HTTPStatus_OK
    /\ parses r (Returned dog_png).
Proof.
  apply (dispatch_photo_provenance ann_presses dogs_only [] 7 dog_png).
  vm_compute. left.
Defined.

(** *** [new_image] and [wake_up] *)

(** X12: for an update with a message, [new_image] makes one or two calls
    of the gateway and nothing else: the apology alone, one photo alone, or
    one photo and then the apology.  It never sends two photos, and never a
    text before a photo. *)
Theorem new_image_calls_shape (update : Update) (w : World)
    (past : list event) :
  let calls := gateway_calls (fst (run (new_image update) w past)) in
  let chat := chat_id update in
  has_message update = true ->
  calls = [sendText chat text_apology]
  \/ exists image,
       calls = [sendImage chat image]
       \/ calls = [sendImage chat image; sendText chat text_apology].
Proof.
  intros calls chat Hm; subst calls chat.
  destruct (new_image_runs update w past Hm) as [Hflow _].
  apply (flow_run_calls _ _ _ Hflow).
Qed.

Lemma new_image_calls_shape_witness :
  gateway_calls (fst (run (new_image ann_presses) muted []))
  = [sendText 7 text_apology]
  \/ exists image,
       gateway_calls (fst (run (new_image ann_presses) muted []))
       = [sendImage 7 image]
       \/ gateway_calls (fst (run (new_image ann_presses) muted []))
          = [sendImage 7 image; sendText 7 text_apology].
Proof.
  apply (new_image_calls_shape ann_presses muted []). reflexivity.
Defined.

(** X13: when an endpoint, the primary or the secondary one, answered 200
    with a payload whose first element holds url, [new_image] sends the
    photo with the chat id and the value of url as its first call; it is the
    only call when the photo call returns, and the apology follows when it
    raises. *)
Theorem new_image_sends_photo (update : Update) (w : World)
    (past : list event) (url : string) (r : Response)
    (fields : gmap string value) (rest : list value) (image : value) :
  let trace := fst (run (new_image update) w past) in
  let chat := chat_id update in
  (url, Returned r) ∈ exchanges trace ->
  status_code r = HTTPStatus_OK ->
  json r = Returned (VList (VDict fields :: rest)) ->
  fields !! "url" = Some image ->
  exists out,
    (sendImage chat image, out) ∈ deliveries trace
    /\ gateway_calls trace
       = sendImage chat image
         :: match out with
            | Returned _ => []
            | Raised _ => [sendText chat text_apology]
            end.
Proof.
  intros trace chat Hin Hok Hjson Hurl; subst trace chat.
  assert (Hparse : parses r (Returned image)).
  { intros w' past'. by rewrite (parse_answer_url _ _ _ _ _ _ Hjson Hurl). }
  destruct (has_message update) eqn:Hm; cycle 1.
  { rewrite (new_image_no_message _ _ _ Hm) in Hin.
    by apply elem_of_nil in Hin. }
  destruct (new_image_runs update w past Hm) as [Hflow _].
  apply (flow_run_accepted _ _ _ _ r image w Hflow Hin Hok Hparse).
Qed.

Lemma new_image_sends_photo_witness :
  gateway_calls (fst (run (new_image ann_presses) dogs_only []))
  = [sendImage 7 (VStr "http://x/dog.png")].
Proof.
  destruct (new_image_sends_photo ann_presses dogs_only []
              BACKUP_ENDPOINT (respond 200 (Returned dog_payload))
              {[ "url" := dog_png ]} [] dog_png)
    as (out & Hphoto & Hcalls).
  - occurs.
  - reflexivity.
  - reflexivity.
  - vm_compute. reflexivity.
  - rewrite Hcalls. vm_compute in Hphoto.
    apply elem_of_cons in Hphoto as [[= ->]|Hphoto]; [reflexivity|].
    by apply elem_of_nil in Hphoto.
Defined.

(** X14: for an update with a message, the first thing [wake_up] does
    besides logging is to send the greeting: the gateway is asked before any
    request is issued, and the greeting is sent whatever the endpoints will
    answer. *)
Theorem wake_up_greets_first (update : Update) (w : World)
    (past : list event) :
  has_message update = true ->
  exists out rest,
    fst (run (wake_up update) w past)
    = Log DEBUG (text_received update)
      :: SendMessage (chat_id update) (text_greeting (first_name update))
           MARKUP out
      :: rest
    /\ out = bot_send_message w (past ++ [Log DEBUG (text_received update)])
               (chat_id update) (text_greeting (first_name update)) MARKUP.
Proof.
  intros Hm.
  destruct (wake_up_outcome update w past Hm)
    as (out & evs & ds & Htrace & Hout & _).
  by exists out, evs.
Qed.

Lemma wake_up_greets_first_witness :
  exists out rest,
    fst (run (wake_up ann_starts) down [])
    = Log DEBUG (text_received ann_starts)
      :: SendMessage 7 (text_greeting (Some "Ann")) MARKUP out
      :: rest
    /\ out = Returned tt.
Proof.
  apply (wake_up_greets_first ann_starts down []). reflexivity.
Defined.

Lemma fetch_run_transport_raised xs out e :
  fetch_run xs out -> (BACKUP_ENDPOINT, Raised e) ∈ xs -> out = Raised e.
Proof. destruct 1; intros Hin; by members. Qed.




(** *** [get_response] *)

(** X16: a response [get_response] returns has status 200, and it is the
    response of the last request issued. *)
Theorem get_response_returns_success (w : World) (past : list event)
    (r : Response) :
  snd (run get_response w past) = Returned r ->
  status_code r = 200
  /\ exists url,
       last (exchanges (fst (run get_response w past)))
       = Some (url, Returned r).
Proof.
  intros Hret. destruct (get_response_runs w past) as (Hfetch & _ & _).
  rewrite Hret in Hfetch. by apply fetch_run_returned.
Qed.

Lemma get_response_returns_success_witness :
  status_code (respond 200 (Returned dog_payload)) = 200
  /\ exists url,
       last (exchanges (fst (run get_response dogs_only [])))
       = Some (url, Returned (respond 200 (Returned dog_payload))).
Proof.
  apply (get_response_returns_success dogs_only []
           (respond 200 (Returned dog_payload))).
  reflexivity.
Defined.

(** X17: when [get_response] raises, both endpoints were asked and neither
    yielded a success, and the exception is the one of the secondary
    attempt: what its request raised, or APIAnswerStatusCodeError with the
    text that names the secondary endpoint.  The failure of the primary
    attempt is logged and never raised. *)
Theorem get_response_raises_the_secondary_failure (w : World)
    (past : list event) (e : exn) :
  snd (run get_response w past) = Raised e ->
  exists o1 o2,
    exchanges (fst (run get_response w past))
    = [(DEFAULT_ENDPOINT, o1); (BACKUP_ENDPOINT, o2)]
    /\ failed o1 /\ failed o2
    /\ (o2 = Raised e
        \/ exists r,
             o2 = Returned r
             /\ e = APIAnswerStatusCodeError
                      (text_unavailable BACKUP_ENDPOINT (status_code r))).
Proof.
  intros Hret. destruct (get_response_runs w past) as (Hfetch & _ & _).
  rewrite Hret in Hfetch. by apply fetch_run_raised.
Qed.

Lemma get_response_raises_the_secondary_failure_witness :
  exists o1 o2,
    exchanges (fst (run get_response unreachable []))
    = [(DEFAULT_ENDPOINT, o1); (BACKUP_ENDPOINT, o2)]
    /\ failed o1 /\ failed o2
    /\ (o2 = Raised timeout
        \/ exists r,
             o2 = Returned r
             /\ timeout = APIAnswerStatusCodeError
                            (text_unavailable BACKUP_ENDPOINT
                               (status_code r))).
Proof.
  apply (get_response_raises_the_secondary_failure unreachable [] timeout).
  reflexivity.
Defined.

(** X18: when the primary attempt failed and the secondary endpoint answered
    200, [get_response] returns the response of the secondary endpoint. *)
Theorem get_response_falls_back (w : World) (past : list event)
    (r : Response) :
  (BACKUP_ENDPOINT, Returned r) ∈ exchanges (fst (run get_response w past)) ->
  status_code r = HTTPStatus_OK ->
  failed (requests_get w past DEFAULT_ENDPOINT)
  /\ snd (run get_response w past) = Returned r.
Proof.
  intros Hin Hok.
  destruct (get_response_runs w past) as (Hfetch & _ & Hhead).
  revert Hin Hhead.
  destruct Hfetch; cbn; intros Hin [= <-]; members; done.
Qed.

Lemma get_response_falls_back_witness :
  failed (requests_get dogs_only [] DEFAULT_ENDPOINT)
  /\ snd (run get_response dogs_only [])
     = Returned (respond 200 (Returned dog_payload)).
Proof.
  apply (get_response_falls_back dogs_only []
           (respond 200 (Returned dog_payload))).
  - occurs.
  - reflexivity.
Defined.

(** *** [parse_answer] *)

(** X19: the four checks after the decoding, each with the class it raises:
    a decoded value that is no list raises TypeError, the empty list
    ValueError, a first element that is no dict TypeError, and a first dict
    without the key url KeyError, whatever the later elements hold. *)
Theorem parse_answer_shape_errors (response : Response) (w : World)
    (past : list event) :
  let out := snd (run (parse_answer response) w past) in
  (forall v, json response = Returned v -> (forall items, v ≠ VList items) ->
     out = Raised (TypeError (text_not_list v)))
  /\ (json response = Returned (VList []) ->
      out = Raised (ValueError text_empty))
  /\ (forall first rest,
       json response = Returned (VList (first :: rest)) ->
       (forall fields, first ≠ VDict fields) ->
       out = Raised (TypeError (text_not_dict first)))
  /\ (forall fields rest,
       json response = Returned (VList (VDict fields :: rest)) ->
       fields !! "url" = None ->
       out = Raised (KeyError text_no_url)).
Proof.
  intros out; subst out. split_and!; intros.
  - by apply parse_answer_not_list.
  - by apply parse_answer_empty.
  - by eapply parse_answer_not_dict.
  - by eapply parse_answer_no_url.
Qed.

Lemma parse_answer_shape_errors_witness :
  snd (run (parse_answer (respond 200 (Returned quota_payload))) fine [])
  = Raised (TypeError (text_not_list quota_payload))
  /\ snd (run (parse_answer (respond 200 (Returned (VList [])))) fine [])
     = Raised (ValueError text_empty)
  /\ snd (run (parse_answer (respond 200 (Returned (VList [VInt 3]))))
            fine [])
     = Raised (TypeError (text_not_dict (VInt 3)))
  /\ snd (run (parse_answer (respond 200 (Returned late_url_payload)))
            fine [])
     = Raised (KeyError text_no_url).
Proof.
  split_and!.
  - apply (proj1 (parse_answer_shape_errors
                    (respond 200 (Returned quota_payload)) fine []));
      [reflexivity | discriminate].
  - apply (proj1 (proj2 (parse_answer_shape_errors
                    (respond 200 (Returned (VList []))) fine []))).
    reflexivity.
  - apply (proj1 (proj2 (proj2 (parse_answer_shape_errors
                    (respond 200 (Returned (VList [VInt 3]))) fine [])))
             (VInt 3) []); [reflexivity | discriminate].
  - apply (proj2 (proj2 (proj2 (parse_answer_shape_errors
                    (respond 200 (Returned late_url_payload)) fine [])))
             {[ "id" := VStr "a1" ]} [VDict {[ "url" := dog_png ]}]);
      [reflexivity | vm_compute; reflexivity].
Defined.

(** X20: the [except] clause of [parse_answer] names JSONDecodeError only:
    any other exception of [response.json()] leaves [parse_answer] as it
    is, and nothing is logged. *)
Theorem parse_answer_passes_other_exceptions (response : Response)
    (e : exn) (w : World) (past : list event) :
  json response = Raised e ->
  is_JSONDecodeError e = false ->
  run (parse_answer response) w past = ([], Raised e).
Proof.
  intros Hjson He. unfold parse_answer. plumbing. by rewrite Hjson, He.
Qed.

Lemma parse_answer_passes_other_exceptions_witness :
  run (parse_answer (respond 200 (Raised decoding_broke))) fine []
  = ([], Raised decoding_broke).
Proof.
  apply (parse_answer_passes_other_exceptions
           (respond 200 (Raised decoding_broke)) decoding_broke fine []);
    reflexivity.
Defined.

(** X21: whenever [response.json()] returns or raises JSONDecodeError,
    [parse_answer] logs exactly one record and does nothing else: at level
    INFO when it returns a value, at level ERROR when it raises. *)
Theorem parse_answer_logs_once (response : Response) (w : World)
    (past : list event) :
  (forall e, json response = Raised e -> is_JSONDecodeError e = true) ->
  exists lvl msg,
    fst (run (parse_answer response) w past) = [Log lvl msg]
    /\ lvl = match snd (run (parse_answer response) w past) with
             | Returned _ => INFO
             | Raised _ => ERROR
             end.
Proof.
  intros Hjson. unfold parse_answer. plumbing.
  destruct (json response) as [v|e].
  - destruct v as [| | | | |[|[] ?]|]; cbn; eauto.
    destruct (fields !! "url"); cbn; eauto.
  - rewrite (Hjson e eq_refl). cbn. eauto.
Qed.

Lemma parse_answer_logs_once_witness :
  exists lvl msg,
    fst (run (parse_answer (respond 200 not_json)) fine []) = [Log lvl msg]
    /\ lvl = match snd (run (parse_answer (respond 200 not_json)) fine [])
             with
             | Returned _ => INFO
             | Raised _ => ERROR
             end.
Proof.
  apply (parse_answer_logs_once (respond 200 not_json) fine []).
  intros e [= <-]. reflexivity.
Defined.

(** *** [check_token] and [main] *)

(** X22: [check_token] returns True exactly when the token is set and not
    empty, and logs one record: at level INFO then, at level CRITICAL
    otherwise. *)
Theorem check_token_set_and_not_empty (token : option string) (w : World)
    (past : list event) :
  exists ok lvl msg,
    run (check_token token) w past = ([Log lvl msg], Returned ok)
    /\ (ok = true <-> exists s, token = Some s /\ s ≠ EmptyString)
    /\ lvl = (if ok then INFO else CRITICAL).
Proof.
  unfold check_token.
  destruct token as [[|c s]|]; cbn; do 3 eexists;
    (split; [reflexivity|]); (split; [|reflexivity]).
  - split; [done|]. by intros (s & [= <-] & Hs).
  - split; [|done]. intros _. by exists (String c s).
  - split; [done|]. by intros (s & [=] & _).
Qed.

(** X23: without a token, or with an empty one, [main] logs one record at
    level CRITICAL and raises EnvVariableError, and the gateway is not
    started, whatever starting it would do.  With a token, [main] logs one
    record at level INFO and then starts the gateway with the token and the
    three handlers, in the order start, button, any text. *)
Theorem main_needs_the_token (token : option string)
    (serve : option string -> list handler -> M unit) (w : World)
    (past : list event) :
  (token = None \/ token = Some EmptyString ->
   run (main token serve) w past
   = ([Log CRITICAL text_token_missing], Raised EnvVariableError))
  /\ (forall s, token = Some s -> s ≠ EmptyString ->
      let started :=
        run (serve token
               [ (CommandHandler_check "start", wake_up);
                 (Filters_text_in BUTTON, new_image);
                 (Filters_text, reply_to_message) ])
            w (past ++ [Log INFO text_token_found]) in
      run (main token serve) w past
      = (Log INFO text_token_found :: fst started, snd started)).
Proof.
  split.
  - intros [-> | ->]; reflexivity.
  - intros s -> Hs started; subst started.
    destruct s as [|c s]; [done|]. unfold main, check_token.
    cbn [truthy_optional truthy_str]. plumbing. cbn [Bool.eqb app].
    rewrite app_nil_r. fold handlers.
    by destruct (serve (Some (String c s)) handlers w _).
Qed.

Lemma main_needs_the_token_witness :
  run (main None never_served) fine []
  = ([Log CRITICAL text_token_missing], Raised EnvVariableError)
  /\ run (main (Some "123:abc") served) fine []
     = ([Log INFO text_token_found; Log INFO "polling"], Returned tt).
Proof.
  split.
  - apply (proj1 (main_needs_the_token None never_served fine [])).
    by left.
  - apply (proj2 (main_needs_the_token (Some "123:abc") served fine [])
             "123:abc"); [reflexivity | discriminate].
Defined.
